(** * pkg audit: the advisory matching engine of [src/pkg/audit.c]

    A shallow embedding of the parser ([parse_pattern], [parse_db]), the
    index builder ([str_noglob_len], [audit_entry_compare],
    [preprocess_db]), the version matcher ([match_version]) and the query
    ([is_vulnerable]), followed by the properties established for them.

    Conventions.
    - A C string is the list of its bytes before the terminating NUL.
    - A [char *] field that may be [NULL] is an [option].
    - [size_t] indices and lengths are [nat]; [int] results are [Z].
    - A function whose C execution may have no defined result (a read past
      the end of an object, a store through [NULL], a loop that does not
      end) returns an [option]; [None] is "no defined result". *)

From Stdlib Require Import ZArith Ascii String Lia.
From stdpp Require Import base tactics option list sorting strings.

Set Warnings "-clear-no-such-hyp".

(* ================================================================= *)
(** ** Bytes and C strings *)

Definition cstring := list ascii.

Definition NUL : ascii := "000"%char.
Definition NL : ascii := "010"%char.

(** The bytes of a string literal. *)
Definition bytes (s : string) : cstring := list_ascii_of_string s.

(** The value of a byte read as [unsigned char]. *)
Definition uchar (c : ascii) : Z := Z.of_N (N_of_ascii c).

(** [(size_t)c] for a plain [char c]: [char] is signed on the platforms pkg
    targets (FreeBSD on x86), so a byte above 127 is a negative [char] and
    converts to a value at the top of the 64-bit range. *)
Definition size_t_of_char (c : ascii) : Z :=
  if (uchar c <? 128)%Z then uchar c else (uchar c - 256 + 2 ^ 64)%Z.

(** The bytes of [l] before its first NUL: how C reads a string out of a
    buffer. *)
Fixpoint cstr (l : list ascii) : cstring :=
  match l with
  | [] => []
  | c :: l' => if decide (c = NUL) then [] else c :: cstr l'
  end.

(** [s[0]] of a C string: the terminating NUL when the string is empty. *)
Definition first_char (s : cstring) : ascii :=
  match s with [] => NUL | c :: _ => c end.

(** [strncmp(s1, s2, n)], as FreeBSD computes it: the difference of the first
    pair of differing bytes read as [unsigned char] (the terminator is 0),
    looking at no more than [n] bytes. *)
Fixpoint strncmp (s1 s2 : cstring) (n : nat) {struct n} : Z :=
  match n with
  | 0 => 0
  | S n' =>
      match s1, s2 with
      | [], [] => 0
      | [], c2 :: _ => (0 - uchar c2)%Z
      | c1 :: _, [] => uchar c1
      | c1 :: s1', c2 :: s2' =>
          if decide (c1 = c2) then strncmp s1' s2' n'
          else (uchar c1 - uchar c2)%Z
      end
  end.

(** [strcmp(s1, s2)]. *)
Fixpoint strcmp (s1 s2 : cstring) : Z :=
  match s1, s2 with
  | [], [] => 0
  | [], c2 :: _ => (0 - uchar c2)%Z
  | c1 :: _, [] => uchar c1
  | c1 :: s1', c2 :: s2' =>
      if decide (c1 = c2) then strcmp s1' s2' else (uchar c1 - uchar c2)%Z
  end.

(* ================================================================= *)
(** ** Data model (audit.c, lines 47-112) *)

Definition EQ : Z := 1.
Definition LT : Z := 2.
Definition LTE : Z := 3.
Definition GT : Z := 4.
Definition GTE : Z := 5.

Record version_entry := mk_version_entry {
  version : option cstring;
  type : Z
}.

Record audit_entry := mk_audit_entry {
  pkgname : option cstring;
  v1 : version_entry;
  v2 : version_entry;
  url : option cstring;
  desc : option cstring
}.

(** What [calloc] hands out: every pointer [NULL], every [int] zero. *)
Definition zero_version : version_entry := mk_version_entry None 0.
Definition zero_entry : audit_entry :=
  mk_audit_entry None zero_version zero_version None None.

Record audit_entry_sorted := mk_sorted {
  e : audit_entry;          (* Entry itself *)
  noglob_len : nat;         (* Prefix without glob characters *)
  next_pfx_incr : nat       (* Index increment for the entry with
                               different prefix *)
}.

(** The package handed to the query: what [pkg_get] yields for [PKG_NAME]
    and [PKG_VERSION]. *)
Record pkg := mk_pkg {
  PKG_NAME : cstring;
  PKG_VERSION : cstring
}.

(* ================================================================= *)
(** ** str_noglob_len (audit.c, lines 304-313) *)

Definition is_glob_char (c : ascii) : bool :=
  bool_decide (c = "*"%char) || bool_decide (c = "?"%char) ||
  bool_decide (c = "["%char) || bool_decide (c = "{"%char) ||
  bool_decide (c = "092"%char).

Fixpoint str_noglob_len (s : cstring) : nat :=
  match s with
  | [] => 0
  | c :: s' => if is_glob_char c then 0 else S (str_noglob_len s')
  end.

(* ================================================================= *)
(** ** What the program takes from libc and libpkg

    [fnmatch] and [qsort] are libc's, [pkg_version_cmp] is libpkg's; none of
    them is part of this repository.  They are taken as an interface, with
    the part of their contracts the engine relies on:
    - [fnmatch] (flags 0) compares ordinary characters literally, so a
      match agrees with the pattern on its glob-free prefix, and a pattern
      without glob characters matches itself only;
    - [qsort] returns a permutation of the array, and one in ascending
      order when the comparison is consistent on the elements of the array
      (C11 7.22.5); the order of elements that compare equal is
      unspecified;
    - [pkg_version_cmp] is an opaque three-way comparison. *)

Record consistent_on {A : Type} (cmp : A → A → Z) (l : list A) : Prop := {
  cmp_antisym : ∀ a b, a ∈ l → b ∈ l → Z.sgn (cmp a b) = (- Z.sgn (cmp b a))%Z;
  cmp_trans : ∀ a b c, a ∈ l → b ∈ l → c ∈ l →
    (cmp a b ≤ 0)%Z → (cmp b c ≤ 0)%Z → (cmp a c ≤ 0)%Z
}.

Class Extern := {
  pkg_version_cmp : cstring → cstring → Z;
  fnmatch : cstring → cstring → Z;
  qsort : ∀ {A : Type}, (A → A → Z) → list A → list A;
  fnmatch_noglob_prefix : ∀ pat s,
    fnmatch pat s = 0%Z → take (str_noglob_len pat) pat `prefix_of` s;
  fnmatch_literal : ∀ pat s,
    str_noglob_len pat = length pat → fnmatch pat s = 0%Z ↔ s = pat;
  qsort_perm : ∀ {A : Type} (cmp : A → A → Z) (l : list A),
    qsort cmp l ≡ₚ l;
  qsort_sorted : ∀ {A : Type} (cmp : A → A → Z) (l : list A),
    consistent_on cmp l →
    StronglySorted (λ a b, (cmp a b ≤ 0)%Z) (qsort cmp l)
}.

(* ================================================================= *)
(** ** match_version (audit.c, lines 413-440) *)

Definition match_version `{Extern} (pkgversion : cstring) (v : version_entry)
  : bool :=
  match version v with
  | None => true
  | Some bound =>
      let c := pkg_version_cmp pkgversion bound in
      if decide (c = -1)%Z then
        bool_decide (type v = LT) || bool_decide (type v = LTE)
      else if decide (c = 0)%Z then
        bool_decide (type v = EQ) || bool_decide (type v = LTE) ||
        bool_decide (type v = GTE)
      else if decide (c = 1)%Z then
        bool_decide (type v = GT) || bool_decide (type v = GTE)
      else false
  end.

(* ================================================================= *)
(** ** parse_pattern (audit.c, lines 202-252)

    [pattern] is the memory the pointer designates: the bytes [getline]
    stored from there on, followed by the terminating NUL at index
    [length pattern].  A read at a larger index is outside what was
    written. *)

Definition peek (buf : list ascii) (i : nat) : option ascii :=
  match buf !! i with
  | Some c => Some c
  | None => if decide (i = length buf) then Some NUL else None
  end.

(** [strndup(buf + start, n)]; a negative [n] converts to a [size_t] above
    any string length. *)
Definition strndup (buf : list ascii) (start : nat) (n : Z) : option cstring :=
  if decide (start ≤ length buf) then
    Some (if (n <? 0)%Z then cstr (drop start buf)
          else cstr (take (Z.to_nat n) (drop start buf)))
  else None.

(** [strdup(buf + start)]. *)
Definition strdup (buf : list ascii) (start : nat) : option cstring :=
  if decide (start ≤ length buf) then Some (cstr (drop start buf)) else None.

(** The [char **] targets [dest] and [next_dest] range over, and the
    [struct version_entry *] targets of [v]. *)
Inductive strfield := dest_pkgname | dest_v1_version | dest_v2_version.
Inductive vfield := at_v1 | at_v2.

Definition set_version (ve : version_entry) (s : cstring) : version_entry :=
  mk_version_entry (Some s) (type ve).
Definition set_type (ve : version_entry) (t : Z) : version_entry :=
  mk_version_entry (version ve) t.

(** [*dest = s]. *)
Definition store (d : strfield) (s : cstring) (x : audit_entry) : audit_entry :=
  match d with
  | dest_pkgname => mk_audit_entry (Some s) (v1 x) (v2 x) (url x) (desc x)
  | dest_v1_version =>
      mk_audit_entry (pkgname x) (set_version (v1 x) s) (v2 x) (url x) (desc x)
  | dest_v2_version =>
      mk_audit_entry (pkgname x) (v1 x) (set_version (v2 x) s) (url x) (desc x)
  end.

(** [v->type = t]. *)
Definition store_type (v : vfield) (t : Z) (x : audit_entry) : audit_entry :=
  match v with
  | at_v1 => mk_audit_entry (pkgname x) (set_type (v1 x) t) (v2 x) (url x) (desc x)
  | at_v2 => mk_audit_entry (pkgname x) (v1 x) (set_type (v2 x) t) (url x) (desc x)
  end.

(** [&v->version]. *)
Definition version_of (v : vfield) : strfield :=
  match v with at_v1 => dest_v1_version | at_v2 => dest_v2_version end.

Record pp_state := mk_pp {
  pp_e : audit_entry;
  pp_start : nat;
  pp_dest : option strfield;
  pp_next_dest : option strfield;
  pp_v : vfield
}.

(** The comparator starting at [pattern[i]]: [(type, skipnext)]. *)
Definition pp_token (pattern : list ascii) (i : nat) : option (Z * nat) :=
  c ← peek pattern i;
  let ts := if decide (c = "="%char) then (EQ, 0) else (0%Z, 0) in
  ts ← (if decide (c = "<"%char) then
          n ← peek pattern (i + 1);
          Some (if decide (n = "="%char) then (LTE, 1) else (LT, 0))
        else Some ts);
  if decide (c = ">"%char) then
    n ← peek pattern (i + 1);
    Some (if decide (n = "="%char) then (GTE, 1) else (GT, 0))
  else Some ts.

(** One turn of the loop body at index [i]; yields the state and the value
    of [i] before the loop's [i++]. *)
Definition pp_body (pattern : list ascii) (len i : nat) (st : pp_state)
  : option (pp_state * nat) :=
  '(ty, skipnext) ← pp_token pattern i;
  let st :=
    if decide (ty ≠ 0%Z) then
      mk_pp (store_type (pp_v st) ty (pp_e st)) (pp_start st) (pp_dest st)
            (Some (version_of (pp_v st))) at_v2
    else st in
  if decide (pp_next_dest st ≠ None ∨ i = len - 1) then
    d ← pp_dest st;
    s ← strndup pattern (pp_start st) (Z.of_nat i - Z.of_nat (pp_start st));
    Some (mk_pp (store d s (pp_e st)) (i + skipnext + 1) (pp_next_dest st)
                None (pp_v st),
          i + skipnext)
  else Some (st, i).

(** [for (i = 0; i < len; i++)]: every turn moves [i] forward, so [len]
    turns are enough ([pp_loop_fuel] below). *)
Fixpoint pp_loop (fuel : nat) (pattern : list ascii) (len i : nat)
    (st : pp_state) : option pp_state :=
  if decide (i < len) then
    match fuel with
    | 0 => None
    | S fuel' =>
        '(st', i') ← pp_body pattern len i st;
        pp_loop fuel' pattern len (S i') st'
    end
  else Some st.

Definition parse_pattern (x : audit_entry) (pattern : list ascii) (len : nat)
  : option audit_entry :=
  pp_e <$> pp_loop len pattern len 0 (mk_pp x 0 (Some dest_pkgname) None at_v1).

(* ================================================================= *)
(** ** parse_db (audit.c, lines 254-298) *)

(** [strcspn(l, "|")]: the bytes before the first separator or NUL. *)
Fixpoint span_len (l : list ascii) : nat :=
  match l with
  | [] => 0
  | c :: l' =>
      if decide (c = "|"%char ∨ c = NUL) then 0 else S (span_len l')
  end.

(** [strsep(&line, "|")] on the line buffer [buf], [line] being an offset
    into it or [NULL]: the token's offset, the buffer and the new [line]. *)
Definition strsep (buf : list ascii) (line : option nat)
  : option (nat * list ascii * option nat) :=
  s ← line;
  let p := s + span_len (drop s buf) in
  Some (match buf !! p with
        | Some c =>
            if decide (c = "|"%char) then (s, <[p := NUL]> buf, Some (S p))
            else (s, buf, None)
        | None => (s, buf, None)
        end).

(** The [while (strsep)] loop over the columns of one line; [column_id] is
    a [uint8_t].  Every turn moves [line] forward, so [length buf + 1]
    turns are enough ([columns_fuel] below). *)
Fixpoint columns (fuel : nat) (linelen : nat) (buf : list ascii)
    (line : option nat) (column_id : nat) (x : audit_entry)
  : option audit_entry :=
  match strsep buf line with
  | None => Some x
  | Some (column, buf', line') =>
      match fuel with
      | 0 => None
      | S fuel' =>
          x' ← match column_id with
               | 0 => parse_pattern x (drop column buf') linelen
               | 1 => s ← strdup buf' column;
                      Some (mk_audit_entry (pkgname x) (v1 x) (v2 x) (Some s) (desc x))
               | 2 => s ← strdup buf' column;
                      Some (mk_audit_entry (pkgname x) (v1 x) (v2 x) (url x) (Some s))
               | _ => Some x   (* warn("extra column in audit file") *)
               end;
          columns fuel' linelen buf' line' ((column_id + 1) mod 256) x'
      end
  end.

(** The successive lines [getline] returns for a stream holding [f]: each
    runs through its newline; the last one may lack it. *)
Fixpoint getlines (f : list ascii) : list (list ascii) :=
  match f with
  | [] => []
  | c :: f' =>
      if decide (c = NL) then [c] :: getlines f'
      else match getlines f' with
           | [] => [[c]]
           | l :: ls => (c :: l) :: ls
           end
  end.

(** Lines 269-293 for a line that is no comment: the entry [calloc]
    gave, filled by the loop over the columns. *)
Definition entry_of_line (line : list ascii) : option audit_entry :=
  columns (S (length line)) (length line) line (Some 0) 0 zero_entry.

(** The body of the [while (getline)] loop for one line: [h] is the list
    head, [SLIST_INSERT_HEAD] puts the new entry in front. *)
Definition parse_line (line : list ascii) (h : list audit_entry)
  : option (list audit_entry) :=
  if decide (first_char line = "#"%char) then Some h
  else x ← entry_of_line line; Some (x :: h).

Fixpoint parse_lines (ls : list (list ascii)) (h : list audit_entry)
  : option (list audit_entry) :=
  match ls with
  | [] => Some h
  | l :: ls' => h' ← parse_line l h; parse_lines ls' h'
  end.

(** What [fopen(path, "r")] gives: [NULL] with [errno] set, or a stream. *)
Inductive fopen_result :=
  | fopen_NULL (err : Z)
  | fopen_FILE (contents : list ascii).

Inductive epkg := EPKG_OK | EPKG_FATAL.

Definition ENOENT : Z := 2.

(** [parse_db(path, h)], with [fp] what [fopen] returns for [path] and
    [errno] the value of [errno] on entry: the value of [errno] on return,
    the return code and the list. *)
Definition parse_db (fp : fopen_result) (errno : Z) (h : list audit_entry)
  : option (Z * epkg * list audit_entry) :=
  match fp with
  | fopen_NULL err => Some (err, EPKG_FATAL, h)
  | fopen_FILE contents =>
      h' ← parse_lines (getlines contents) h;
      Some (errno, EPKG_OK, h')
  end.

(* ================================================================= *)
(** ** audit_entry_compare (audit.c, lines 318-343) *)

(** [x->pkgname] where the pointer is known not to be [NULL]: the array
    elements are made by [preprocess_db], which has read every name
    through [str_noglob_len] before. *)
Definition name_of (x : audit_entry) : cstring := default [] (pkgname x).

Definition audit_entry_compare (a b : audit_entry_sorted) : Z :=
  let min_len :=
    if decide (noglob_len a < noglob_len b) then noglob_len a
    else noglob_len b in
  let result := strncmp (name_of (e a)) (name_of (e b)) min_len in
  if decide (result = 0%Z) then
    if decide (noglob_len a < noglob_len b) then (-1)%Z
    else if decide (noglob_len b < noglob_len a) then 1%Z
    else result
  else result.

(* ================================================================= *)
(** ** preprocess_db (audit.c, lines 349-411)

    The array [ret] is the list of its [n] elements; [ret[n]] is the
    zeroed terminator [calloc] left after them (its [e] is [NULL]), and
    [ret[k]] for [k > n] is outside the allocation. *)

(** Lines 365-371. *)
Definition init_sorted (h : list audit_entry) : option (list audit_entry_sorted) :=
  mapM (λ x, s ← pkgname x; Some (mk_sorted x (str_noglob_len s) 1)) h.

Definition set_incr (k : nat) (x : audit_entry_sorted) : audit_entry_sorted :=
  mk_sorted (e x) (noglob_len x) k.

(** Lines 390-391: [for (i = 0; tofill > 1; i++, tofill--)]. *)
Fixpoint fill_run (base i tofill : nat) (ret : list audit_entry_sorted)
  : list audit_entry_sorted :=
  match tofill with
  | S (S _ as t) => fill_run base (S i) t (alter (set_incr tofill) (base + i) ret)
  | _ => ret
  end.

(** Lines 385-399: [for (n = 1, tofill = 0; ret[n].e; n++)]. *)
Fixpoint incr_loop (fuel n tofill : nat) (ret : list audit_entry_sorted)
  : option (list audit_entry_sorted) :=
  match ret !! n with
  | None => if decide (n = length ret) then Some ret else None
  | Some cur =>
      match fuel with
      | 0 => None
      | S fuel' =>
          prev ← ret !! (n - 1);
          if decide (noglob_len prev ≠ noglob_len cur) then
            incr_loop fuel' (S n) 1 (fill_run (n - tofill) 0 tofill ret)
          else if decide (strcmp (name_of (e prev)) (name_of (e cur)) = 0%Z) then
            incr_loop fuel' (S n) (S tofill) ret
          else
            incr_loop fuel' (S n) 1 ret
      end
  end.

(** Lines 404-406: the [while] that moves [i] over the elements [l] found
    from index [i] on, as long as their first byte is below [n]. *)
Fixpoint skip_below (n : Z) (l : list audit_entry_sorted) (i : nat) : nat :=
  match l with
  | [] => i
  | x :: l' =>
      if (size_t_of_char (first_char (name_of (e x))) <? n)%Z
      then skip_below n l' (S i) else i
  end.

(** Lines 403-408: [for (n = 1, i = 0; n < 256; n++)], [count] turns left. *)
Fixpoint first_byte_loop (count n i : nat) (ret : list audit_entry_sorted)
    (tbl : list nat) : list nat :=
  match count with
  | 0 => tbl
  | S count' =>
      let i' := skip_below (Z.of_nat n) (drop i ret) i in
      first_byte_loop count' (S n) i' ret (<[n := i']> tbl)
  end.

(** [audit_entry_first_byte_idx] after lines 402-408. *)
Definition first_byte_idx (ret : list audit_entry_sorted) : list nat :=
  first_byte_loop 255 1 0 ret (replicate 256 0).

(** The sorted array and the first-byte table. *)
Definition preprocess_db `{Extern} (h : list audit_entry)
  : option (list audit_entry_sorted * list nat) :=
  ret ← init_sorted h;
  let ret := qsort audit_entry_compare ret in
  ret ← incr_loop (length ret) 1 0 ret;
  Some (ret, first_byte_idx ret).

(* ================================================================= *)
(** ** is_vulnerable (audit.c, lines 442-492)

    [quiet] is the global flag of pkgcli.h that [exec_audit] sets for the
    option [-q].  The result is the returned flag and the entries reported,
    in the order they are printed (the text printed for one is fixed by the
    entry, the package and the flag). *)

(** Lines 473-487, for the entry [x]: with [quiet] the line printed holds
    the name and the version of the package only; without it the
    description and the URL of the entry are printed with ["%s"], which
    has no defined result for a [NULL] string (a line of fewer than three
    columns leaves them so). *)
Definition report `{Extern} (quiet : bool) (p : pkg) (x : audit_entry)
    (acc : bool * list audit_entry) : option (bool * list audit_entry) :=
  name ← pkgname x;
  if decide (fnmatch name (PKG_NAME p) ≠ 0%Z) then Some acc
  else
    let res1 := match_version (PKG_VERSION p) (v1 x) in
    let res2 := match_version (PKG_VERSION p) (v2 x) in
    if res1 && res2 then
      if quiet then Some (true, acc.2 ++ [x])
      else _ ← desc x; _ ← url x; Some (true, acc.2 ++ [x])
    else Some acc.

(** Lines 471-488: [for (i = 0; i < a->next_pfx_incr; i++)], [count] turns
    left; [a[i]] is [ret[idx + i]]. *)
Fixpoint vuln_run `{Extern} (quiet : bool) (count : nat)
    (ret : list audit_entry_sorted)
    (idx i : nat) (p : pkg) (acc : bool * list audit_entry)
  : option (bool * list audit_entry) :=
  match count with
  | 0 => Some acc
  | S count' =>
      x ← ret !! (idx + i);
      acc' ← report quiet p (e x) acc;
      vuln_run quiet count' ret idx (S i) p acc'
  end.

(** Lines 456-489: [for (; (e = a->e) != NULL; a += a->next_pfx_incr)]. *)
Fixpoint vuln_loop `{Extern} (quiet : bool) (fuel : nat)
    (ret : list audit_entry_sorted)
    (idx : nat) (p : pkg) (acc : bool * list audit_entry)
  : option (bool * list audit_entry) :=
  match ret !! idx with
  | None => if decide (idx = length ret) then Some acc else None
  | Some a =>
      match fuel with
      | 0 => None
      | S fuel' =>
          name ← pkgname (e a);
          let cmp := strncmp (PKG_NAME p) name (noglob_len a) in
          if decide (0 < cmp)%Z then
            vuln_loop quiet fuel' ret (idx + next_pfx_incr a) p acc
          else if decide (cmp < 0)%Z then Some acc
          else
            acc' ← vuln_run quiet (next_pfx_incr a) ret idx 0 p acc;
            vuln_loop quiet fuel' ret (idx + next_pfx_incr a) p acc'
      end
  end.

Definition is_vulnerable `{Extern} (quiet : bool)
    (ret : list audit_entry_sorted)
    (tbl : list nat) (p : pkg) : option (bool * list audit_entry) :=
  let c := size_t_of_char (first_char (PKG_NAME p)) in
  start ← (if (c <? 256)%Z then tbl !! Z.to_nat c else None);
  vuln_loop quiet (length ret) ret start p (false, []).

(** [exec_audit] for one package, lines 575-584: parse the audit file,
    build the index, query it. *)
Definition audit_one `{Extern} (quiet : bool) (fp : fopen_result) (p : pkg)
  : option (epkg * bool * list audit_entry) :=
  '(_, rc, h) ← parse_db fp 0 [];
  match rc with
  | EPKG_FATAL => Some (EPKG_FATAL, false, [])
  | EPKG_OK =>
      '(ret, tbl) ← preprocess_db h;
      '(res, out) ← is_vulnerable quiet ret tbl p;
      Some (EPKG_OK, res, out)
  end.

(* ================================================================= *)
(** ** A reference implementation of the interface

    Used to run the engine on concrete advisory files: [fnmatch] after
    POSIX for flags 0 in the C locale (question mark, star, bracket
    expressions with ranges and negation, backslash escapes), [qsort] as an
    insertion sort, and a byte-wise version comparison. *)

Module Ref.

(** The list of a bracket expression, read after its opening bracket and
    the negation mark: [None] when it is not closed. *)
Fixpoint range_loop (fuel : nat) (pat : cstring) (at_start : bool)
    (test : ascii) (ok : bool) : option (bool * cstring) :=
  match fuel with
  | 0 => None
  | S fuel' =>
      match pat with
      | [] => None
      | c :: rest =>
          if bool_decide (c = "]"%char) && negb at_start then Some (ok, rest)
          else
            let pat1 := if decide (c = "092"%char) then rest else pat in
            match pat1 with
            | [] => None
            | lo :: pat2 =>
                match pat2 with
                | dash :: hi0 :: pat3 =>
                    if bool_decide (dash = "-"%char) &&
                       negb (bool_decide (hi0 = "]"%char)) then
                      let pat4 := if decide (hi0 = "092"%char) then pat3
                                  else hi0 :: pat3 in
                      match pat4 with
                      | [] => None
                      | hi :: pat5 =>
                          range_loop fuel' pat5 false test
                            (ok || ((uchar lo <=? uchar test)%Z &&
                                    (uchar test <=? uchar hi)%Z))
                      end
                    else
                      range_loop fuel' pat2 false test
                        (ok || bool_decide (lo = test))
                | _ =>
                    range_loop fuel' pat2 false test
                      (ok || bool_decide (lo = test))
                end
            end
      end
  end.

(** [Some (matched, rest)] for a closed bracket expression. *)
Definition rangematch (pat : cstring) (test : ascii) : option (bool * cstring) :=
  let negate :=
    match pat with
    | c :: _ => bool_decide (c = "!"%char) || bool_decide (c = "^"%char)
    | [] => false
    end in
  let pat' := if negate then tail pat else pat in
  '(ok, rest) ← range_loop (length pat') pat' true test false;
  Some (xorb ok negate, rest).

Fixpoint matches (fuel : nat) (pat s : cstring) : bool :=
  match fuel with
  | 0 => false
  | S fuel' =>
      match pat with
      | [] => bool_decide (s = [])
      | c :: pat' =>
          if decide (c = "?"%char) then
            match s with [] => false | _ :: s' => matches fuel' pat' s' end
          else if decide (c = "*"%char) then
            (fix star (s : cstring) : bool :=
               matches fuel' pat' s ||
               match s with [] => false | _ :: s' => star s' end) s
          else if decide (c = "["%char) then
            match s with
            | [] => false
            | t :: s' =>
                match rangematch pat' t with
                | None => bool_decide (c = t) && matches fuel' pat' s'
                | Some (true, rest) => matches fuel' rest s'
                | Some (false, _) => false
                end
            end
          else if decide (c = "092"%char) then
            match pat', s with
            | [], t :: s' => bool_decide (t = c) && matches fuel' [] s'
            | q :: pat'', t :: s' => bool_decide (t = q) && matches fuel' pat'' s'
            | _, [] => false
            end
          else
            match s with
            | [] => false
            | t :: s' => bool_decide (c = t) && matches fuel' pat' s'
            end
      end
  end.

(** 0 on a match, [FNM_NOMATCH] otherwise. *)
Definition fnmatch (pat s : cstring) : Z :=
  if matches (S (length pat)) pat s then 0%Z else 1%Z.

(** Insertion sort: the element goes in front of the first one it does
    not exceed, so elements that compare equal keep the order they had in
    the array (as under every stable sort). *)
Fixpoint insert {A : Type} (cmp : A → A → Z) (x : A) (l : list A) : list A :=
  match l with
  | [] => [x]
  | y :: l' =>
      if decide (cmp x y ≤ 0)%Z then x :: y :: l' else y :: insert cmp x l'
  end.

Definition qsort {A : Type} (cmp : A → A → Z) (l : list A) : list A :=
  foldr (insert cmp) [] l.

(** Versions ordered as byte strings. *)
Definition pkg_version_cmp (a b : cstring) : Z := Z.sgn (strcmp a b).

End Ref.

(* ================================================================= *)
(** * Properties *)

(** ** The reference implementation meets the interface *)

Lemma is_glob_char_false c :
  is_glob_char c = false →
  c ≠ "*"%char ∧ c ≠ "?"%char ∧ c ≠ "["%char ∧ c ≠ "{"%char ∧ c ≠ "092"%char.
Proof.
  unfold is_glob_char. rewrite !orb_false_iff, !bool_decide_eq_false. tauto.
Qed.

Lemma ref_matches_prefix fuel pat s :
  Ref.matches fuel pat s = true → take (str_noglob_len pat) pat `prefix_of` s.
Proof.
  revert pat s. induction fuel as [|fuel IH]; intros pat s; [done|].
  destruct pat as [|c pat]; simpl; [intros _; apply prefix_nil|].
  destruct (is_glob_char c) eqn:Hg; [intros _; apply prefix_nil|].
  apply is_glob_char_false in Hg as (? & ? & ? & ? & ?).
  repeat case_decide; try congruence.
  destruct s as [|t s]; [done|].
  rewrite andb_true_iff, bool_decide_eq_true. intros [-> Hm].
  simpl. apply prefix_cons, IH, Hm.
Qed.

Lemma ref_matches_literal pat : ∀ fuel s,
  length pat < fuel → str_noglob_len pat = length pat →
  Ref.matches fuel pat s = true ↔ s = pat.
Proof.
  induction pat as [|c pat IH]; intros fuel s Hfuel Hlen.
  - destruct fuel; [simpl in Hfuel; lia|]. simpl. apply bool_decide_eq_true.
  - destruct fuel as [|fuel]; [simpl in Hfuel; lia|]. simpl in *.
    destruct (is_glob_char c) eqn:Hg; [done|].
    apply is_glob_char_false in Hg as (? & ? & ? & ? & ?).
    repeat case_decide; try congruence.
    destruct s as [|t s]; [done|].
    rewrite andb_true_iff, bool_decide_eq_true, (IH fuel s) by lia.
    split; [intros [-> ->]; done | intros [= -> ->]; done].
Qed.

Lemma ref_fnmatch_prefix pat s :
  Ref.fnmatch pat s = 0%Z → take (str_noglob_len pat) pat `prefix_of` s.
Proof.
  unfold Ref.fnmatch. destruct (Ref.matches _ pat s) eqn:Hm; [|done].
  intros _. eapply ref_matches_prefix, Hm.
Qed.

Lemma ref_fnmatch_literal pat s :
  str_noglob_len pat = length pat → Ref.fnmatch pat s = 0%Z ↔ s = pat.
Proof.
  intros Hlen. unfold Ref.fnmatch.
  rewrite <- (ref_matches_literal pat (S (length pat)) s) by (done || lia).
  destruct (Ref.matches _ pat s); done.
Qed.

Lemma ref_insert_perm {A} (cmp : A → A → Z) x l : Ref.insert cmp x l ≡ₚ x :: l.
Proof.
  induction l as [|y l IH]; simpl; [done|].
  case_decide; [done|]. rewrite IH. apply Permutation_swap.
Qed.

Lemma ref_qsort_perm {A} (cmp : A → A → Z) l : Ref.qsort cmp l ≡ₚ l.
Proof.
  induction l as [|x l IH]; simpl; [done|].
  unfold Ref.qsort in *. simpl. by rewrite ref_insert_perm, IH.
Qed.

Lemma ref_insert_sorted {A} (cmp : A → A → Z) (dom : list A) x l :
  consistent_on cmp dom → x ∈ dom → (∀ y, y ∈ l → y ∈ dom) →
  StronglySorted (λ a b, (cmp a b ≤ 0)%Z) l →
  StronglySorted (λ a b, (cmp a b ≤ 0)%Z) (Ref.insert cmp x l).
Proof.
  intros [Hanti Htrans] Hx. induction l as [|y l IH]; intros Hdom Hs; simpl.
  - repeat constructor.
  - apply StronglySorted_inv in Hs as [Hs Hy].
    assert (y ∈ dom) as Hyd by (apply Hdom; left).
    case_decide as Hxy.
    + constructor; [by constructor|]. constructor; [done|].
      rewrite Forall_forall in Hy |- *. intros z Hz.
      apply (Htrans x y z); auto. apply Hdom. by right.
    + constructor.
      * apply IH; [|done]. intros z Hz. apply Hdom. by right.
      * rewrite Forall_forall in Hy |- *. intros z Hz.
        rewrite (ref_insert_perm cmp x l) in Hz.
        apply elem_of_cons in Hz as [->|Hz]; [|by apply Hy].
        specialize (Hanti x y Hx Hyd). lia.
Qed.

Lemma ref_qsort_sorted {A} (cmp : A → A → Z) l :
  consistent_on cmp l → StronglySorted (λ a b, (cmp a b ≤ 0)%Z) (Ref.qsort cmp l).
Proof.
  intros Hc. unfold Ref.qsort.
  assert (∀ k, (∀ y, y ∈ k → y ∈ l) →
    StronglySorted (λ a b, (cmp a b ≤ 0)%Z) (foldr (Ref.insert cmp) [] k)) as H.
  { induction k as [|x k IH]; intros Hk; simpl; [constructor|].
    apply (ref_insert_sorted cmp l); auto.
    - apply Hk. left.
    - intros y Hy. apply Hk. right.
      by rewrite <- (ref_qsort_perm cmp k).
    - apply IH. intros y Hy. apply Hk. by right. }
  by apply H.
Qed.

(** The reference implementation as an instance of the interface. *)
Definition ref_extern : Extern := {|
  pkg_version_cmp := Ref.pkg_version_cmp;
  fnmatch := Ref.fnmatch;
  qsort := @Ref.qsort;
  fnmatch_noglob_prefix := ref_fnmatch_prefix;
  fnmatch_literal := ref_fnmatch_literal;
  qsort_perm := @ref_qsort_perm;
  qsort_sorted := @ref_qsort_sorted
|}.

(* ================================================================= *)
(** ** The version matcher *)

Section version_matcher.
Context `{E : Extern}.

Lemma match_version_absent pkgversion ty :
  match_version pkgversion (mk_version_entry None ty) = true.
Proof. reflexivity. Qed.

Lemma match_version_present pkgversion bound ty :
  match_version pkgversion (mk_version_entry (Some bound) ty) = true ↔
  (pkg_version_cmp pkgversion bound = (-1)%Z ∧ (ty = LT ∨ ty = LTE)) ∨
  (pkg_version_cmp pkgversion bound = 0%Z ∧ (ty = EQ ∨ ty = LTE ∨ ty = GTE)) ∨
  (pkg_version_cmp pkgversion bound = 1%Z ∧ (ty = GT ∨ ty = GTE)).
Proof.
  unfold match_version; simpl.
  repeat case_decide;
    rewrite ?orb_true_iff, ?bool_decide_eq_true; split; try lia; try tauto.
  all: intros [[? ?]|[[? ?]|[? ?]]]; try lia; tauto.
Qed.

(** C3: an absent bound is satisfied by every version; a present bound is
    satisfied exactly when the verdict of [pkg_version_cmp] on the version
    and the bound's value is Less (-1) for LT, Less or Equal (-1 or 0) for
    LTE, Equal for EQ, Greater (1) for GT, Greater or Equal for GTE. *)
Theorem match_version_spec (pkgversion bound : cstring) :
  let verdict := pkg_version_cmp pkgversion bound in
  let matches ty := match_version pkgversion (mk_version_entry (Some bound) ty) in
  (∀ ty, match_version pkgversion (mk_version_entry None ty) = true) ∧
  (matches LT = true ↔ verdict = (-1)%Z) ∧
  (matches LTE = true ↔ verdict = (-1)%Z ∨ verdict = 0%Z) ∧
  (matches EQ = true ↔ verdict = 0%Z) ∧
  (matches GT = true ↔ verdict = 1%Z) ∧
  (matches GTE = true ↔ verdict = 1%Z ∨ verdict = 0%Z).
Proof.
  cbv zeta. split; [intros ty; apply match_version_absent|].
  rewrite !match_version_present. unfold EQ, LT, LTE, GT, GTE.
  repeat split; intros; try lia.
Qed.

End version_matcher.

(* ================================================================= *)
(** ** The openssl scenario *)

(** [cmp] orders the versions of [chain] as listed: a version compares
    Less (-1) to those after it, Equal (0) to itself and Greater (1) to
    those before it. *)
Definition orders (cmp : cstring → cstring → Z) (chain : list cstring) : Prop :=
  ∀ i j a b, chain !! i = Some a → chain !! j = Some b →
    cmp a b = Z.sgn (Z.of_nat i - Z.of_nat j).

(** The line of the scenario. *)
Definition openssl_line : list ascii :=
  bytes "openssl>=1.0.0<1.0.2|http://example/adv|heartbleed".

(** The audit file that holds the line: ended by a newline, as the lines
    of a text file are, or cut off after the last byte of the line. *)
Definition openssl_db (newline : bool) : fopen_result :=
  fopen_FILE (openssl_line ++ if newline then [NL] else []).

Definition openssl_entry (newline : bool) : audit_entry :=
  mk_audit_entry (Some (bytes "openssl"))
    (mk_version_entry (Some (bytes "1.0.0")) GTE)
    (mk_version_entry (Some (bytes "1.0.2")) LT)
    (Some (bytes "http://example/adv"))
    (Some (bytes "heartbleed" ++ if newline then [NL] else [])).

Definition openssl (v : string) : pkg := mk_pkg (bytes "openssl") (bytes v).

Section openssl_scenario.
Context `{E : Extern}.

Lemma qsort_singleton {A} (cmp : A → A → Z) (x : A) : qsort cmp [x] = [x].
Proof. apply Permutation_singleton_r, qsort_perm. Qed.


(** What [report] does with a named entry that it can print. *)
Lemma report_named quiet p x acc name :
  pkgname x = Some name →
  quiet = true ∨ (desc x ≠ None ∧ url x ≠ None) →
  report quiet p x acc =
  Some (if bool_decide (fnmatch name (PKG_NAME p) = 0%Z) &&
           match_version (PKG_VERSION p) (v1 x) &&
           match_version (PKG_VERSION p) (v2 x)
        then (true, acc.2 ++ [x]) else acc).
Proof.
  intros Hn Hprint. unfold report. rewrite Hn. simpl.
  case_decide as Hf.
  - by rewrite bool_decide_eq_false_2.
  - rewrite bool_decide_eq_true_2
      by (destruct (decide (fnmatch name (PKG_NAME p) = 0%Z)); tauto).
    simpl. destruct (_ && _); [|done].
    destruct Hprint as [-> | [Hd Hu] ]; [done|].
    destruct quiet; [done|].
    destruct (desc x); [|done]. destruct (url x); [|done]. done.
Qed.

Lemma openssl_parsed newline :
  parse_db (openssl_db newline) 0 [] = Some (0%Z, EPKG_OK, [openssl_entry newline]).
Proof. destruct newline; vm_compute; reflexivity. Qed.

Lemma openssl_query (quiet newline : bool) (pkgversion : cstring) :
  audit_one quiet (openssl_db newline) (mk_pkg (bytes "openssl") pkgversion) =
  Some (if match_version pkgversion (v1 (openssl_entry newline)) &&
           match_version pkgversion (v2 (openssl_entry newline))
        then (EPKG_OK, true, [openssl_entry newline]) else (EPKG_OK, false, [])).
Proof.
  assert (fnmatch (bytes "openssl") (bytes "openssl") = 0%Z) as Hf
    by (by apply fnmatch_literal).
  unfold audit_one. rewrite openssl_parsed.
  cbn [mbind option_bind]. unfold preprocess_db.
  change (init_sorted [openssl_entry newline])
    with (Some [mk_sorted (openssl_entry newline) 7 1]).
  cbn [mbind option_bind]. rewrite qsort_singleton.
  change (incr_loop _ 1 0 [mk_sorted (openssl_entry newline) 7 1])
    with (Some [mk_sorted (openssl_entry newline) 7 1]).
  cbn [mbind option_bind]. unfold is_vulnerable.
  change (size_t_of_char _) with 111%Z.
  change (111 <? 256)%Z with true. cbv iota.
  assert (first_byte_idx [mk_sorted (openssl_entry newline) 7 1] !! Z.to_nat 111
          = Some 0) as -> by (vm_compute; reflexivity).
  cbn [mbind option_bind]. simpl vuln_loop.
  rewrite (report_named _ _ _ _ (bytes "openssl"))
    by (reflexivity || (right; done)).
  cbn [PKG_NAME PKG_VERSION].
  change (fnmatch _ _) with (fnmatch (bytes "openssl") (bytes "openssl")).
  rewrite Hf, bool_decide_eq_true_2 by done.
  cbn [mbind option_bind andb]. by destruct (_ && _).
Qed.

(** C2, the amended claim: for the database made of the single line
    [openssl>=1.0.0<1.0.2|http://example/adv|heartbleed], under a version
    comparison that orders 0.9.9 < 1.0.0 < 1.0.1 < 1.0.2 and with or
    without the option [-q], the audit of (openssl, 1.0.1) reports it
    vulnerable, with the advisory whose description is "heartbleed"
    followed by the newline that ends the line (it is "heartbleed" itself
    only when the file ends without a newline); the audits of
    (openssl, 1.0.2) and of (openssl, 0.9.9) report nothing. *)
Theorem openssl_round_trip (quiet newline : bool) :
  orders pkg_version_cmp
    [bytes "0.9.9"; bytes "1.0.0"; bytes "1.0.1"; bytes "1.0.2"] →
  audit_one quiet (openssl_db newline) (openssl "1.0.1")
    = Some (EPKG_OK, true, [openssl_entry newline]) ∧
  desc (openssl_entry newline)
    = Some (bytes "heartbleed" ++ if newline then [NL] else []) ∧
  audit_one quiet (openssl_db newline) (openssl "1.0.2")
    = Some (EPKG_OK, false, []) ∧
  audit_one quiet (openssl_db newline) (openssl "0.9.9")
    = Some (EPKG_OK, false, []).
Proof.
  intros Hord.
  assert (pkg_version_cmp (bytes "1.0.1") (bytes "1.0.0") = 1%Z) as H21
    by exact (Hord 2 1 _ _ eq_refl eq_refl).
  assert (pkg_version_cmp (bytes "1.0.1") (bytes "1.0.2") = (-1)%Z) as H23
    by exact (Hord 2 3 _ _ eq_refl eq_refl).
  assert (pkg_version_cmp (bytes "1.0.2") (bytes "1.0.0") = 1%Z) as H31
    by exact (Hord 3 1 _ _ eq_refl eq_refl).
  assert (pkg_version_cmp (bytes "1.0.2") (bytes "1.0.2") = 0%Z) as H33
    by exact (Hord 3 3 _ _ eq_refl eq_refl).
  assert (pkg_version_cmp (bytes "0.9.9") (bytes "1.0.0") = (-1)%Z) as H01
    by exact (Hord 0 1 _ _ eq_refl eq_refl).
  unfold openssl. rewrite !openssl_query. unfold openssl_entry, match_version.
  cbn [v1 v2 version type desc].
  rewrite H21, H23, H31, H33, H01. done.
Qed.

End openssl_scenario.

Lemma ref_orders_versions :
  orders Ref.pkg_version_cmp
    [bytes "0.9.9"; bytes "1.0.0"; bytes "1.0.1"; bytes "1.0.2"].
Proof.
  intros i j a b Hi Hj.
  destruct i as [|[|[|[|i]]]]; simplify_eq/=;
    destruct j as [|[|[|[|j]]]]; simplify_eq/=; vm_compute; reflexivity.
Qed.

(** The scenario under the reference implementation, on the file whose
    line ends with a newline, without [-q]. *)
Lemma openssl_round_trip_witness :
  orders Ref.pkg_version_cmp
    [bytes "0.9.9"; bytes "1.0.0"; bytes "1.0.1"; bytes "1.0.2"] ∧
  @audit_one ref_extern false (openssl_db true) (openssl "1.0.1")
    = Some (EPKG_OK, true, [openssl_entry true]) ∧
  desc (openssl_entry true) = Some (bytes "heartbleed" ++ [NL]) ∧
  @audit_one ref_extern false (openssl_db true) (openssl "1.0.2")
    = Some (EPKG_OK, false, []) ∧
  @audit_one ref_extern false (openssl_db true) (openssl "0.9.9")
    = Some (EPKG_OK, false, []).
Proof.
  split; [exact ref_orders_versions|].
  exact (@openssl_round_trip ref_extern false true ref_orders_versions).
Defined.

(** C2 as stated fails on the file as a text file holds the line, ended by
    a newline: the advisory reported for (openssl, 1.0.1) has the
    description "heartbleed" and the newline, not "heartbleed". *)
Lemma openssl_description_keeps_newline :
  orders Ref.pkg_version_cmp
    [bytes "0.9.9"; bytes "1.0.0"; bytes "1.0.1"; bytes "1.0.2"] ∧
  @audit_one ref_extern false (openssl_db true) (openssl "1.0.1")
    = Some (EPKG_OK, true, [openssl_entry true]) ∧
  desc (openssl_entry true) = Some (bytes "heartbleed" ++ [NL]) ∧
  desc (openssl_entry true) ≠ Some (bytes "heartbleed").
Proof.
  split; [exact ref_orders_versions|].
  split; [vm_compute; reflexivity|]. split; [reflexivity|discriminate].
Qed.

(* ================================================================= *)
(** ** The parser: parse_pattern *)

Lemma peek_lt buf i :
  i < length buf → ∃ c, peek buf i = Some c ∧ buf !! i = Some c.
Proof.
  intros Hi. destruct (lookup_lt_is_Some_2 buf i Hi) as [c Hc].
  exists c. unfold peek. by rewrite Hc.
Qed.

Lemma peek_le buf i : i ≤ length buf → ∃ c, peek buf i = Some c.
Proof.
  intros Hi. unfold peek. destruct (buf !! i) eqn:Hc; [eauto|].
  apply lookup_ge_None in Hc. case_decide; [eauto|lia].
Qed.

Lemma peek_eq_sign buf i : peek buf i = Some "="%char → i < length buf.
Proof.
  unfold peek. destruct (buf !! i) eqn:Hc.
  - intros _. by eapply lookup_lt_Some.
  - case_decide; intros; simplify_eq.
Qed.

(** What the token reader yields inside the buffer. *)
Lemma pp_token_defined buf i :
  i < length buf →
  ∃ ty skipnext, pp_token buf i = Some (ty, skipnext) ∧
    (skipnext = 0 ∨ (skipnext = 1 ∧ ty ≠ 0%Z ∧ S i < length buf)).
Proof.
  intros Hi. unfold pp_token.
  destruct (peek_lt buf i Hi) as (c & -> & _).
  destruct (peek_le buf (i + 1) ltac:(lia)) as [n Hn].
  cbn [mbind option_bind]. rewrite Hn. cbn [mbind option_bind].
  assert (n = "="%char → S i < length buf) as Hnext.
  { intros ->. apply peek_eq_sign in Hn. lia. }
  repeat case_decide; simplify_eq; cbn [mbind option_bind];
    eexists _, _; (split; [reflexivity|]);
    first [ by left | right; unfold LTE, GTE; auto ].
Qed.

(** The three strings [parse_pattern] stores. *)
Definition parsed_strings (x : audit_entry) : list (option cstring) :=
  [pkgname x; version (v1 x); version (v2 x)].

Definition all_strings (P : cstring → Prop) (x : audit_entry) : Prop :=
  ∀ s, Some s ∈ parsed_strings x → P s.

Lemma all_strings_store P d s x :
  P s → all_strings P x → all_strings P (store d s x).
Proof.
  unfold all_strings, parsed_strings. intros Hs Hx t.
  specialize (Hx t). revert Hx.
  destruct d; simpl; rewrite !elem_of_cons, !elem_of_nil; naive_solver.
Qed.

Lemma all_strings_store_type P v t x :
  all_strings P x → all_strings P (store_type v t x).
Proof. unfold all_strings, parsed_strings. destruct v; simpl; auto. Qed.

Lemma cstr_subseteq l c : c ∈ cstr l → c ∈ l.
Proof.
  induction l as [|a l IH]; simpl; [done|].
  case_decide; [intros Hc; by apply elem_of_nil in Hc|].
  rewrite !elem_of_cons. naive_solver.
Qed.

Lemma cstr_no_NUL l : NUL ∉ cstr l.
Proof.
  induction l as [|a l IH]; simpl; [apply not_elem_of_nil|].
  case_decide; [apply not_elem_of_nil|].
  apply not_elem_of_cons. split; [congruence|done].
Qed.

Lemma cstr_id l : NUL ∉ l → cstr l = l.
Proof.
  induction l as [|a l IH]; simpl; [done|].
  rewrite elem_of_cons. intros Hn. case_decide; [naive_solver|].
  f_equal. apply IH. naive_solver.
Qed.

Lemma cstr_app_NUL l k : NUL ∉ l → cstr (l ++ NUL :: k) = l.
Proof.
  induction l as [|a l IH]; simpl.
  - done.
  - rewrite elem_of_cons. intros Hn. case_decide; [naive_solver|].
    f_equal. apply IH. naive_solver.
Qed.

(** A byte of the window [start, start + n) of the buffer. *)
Lemma elem_of_window (buf : list ascii) start n c :
  c ∈ take n (drop start buf) →
  ∃ j, start ≤ j < start + n ∧ buf !! j = Some c.
Proof.
  intros Hc. apply list_elem_of_lookup in Hc as [k Hk].
  apply lookup_take_Some in Hk as [Hk Hlt]. rewrite lookup_drop in Hk.
  exists (start + k). split; [lia|done].
Qed.

Section parse_pattern_invariant.
Variable buf : list ascii.
Variable P : cstring → Prop.

(** Every window of the buffer that ends before its last byte reads as a
    string with the property [P]. *)
Hypothesis window_P : ∀ start n,
  start + n < length buf → P (cstr (take n (drop start buf))).

Definition pp_inv (i : nat) (st : pp_state) : Prop :=
  pp_start st ≤ i ∧
  pp_next_dest st = None ∧
  (pp_dest st = None → length buf ≤ i) ∧
  (pp_dest st = Some dest_pkgname → i < length buf) ∧
  (pp_dest st ≠ Some dest_pkgname → pkgname (pp_e st) ≠ None) ∧
  all_strings P (pp_e st).

Lemma pp_body_inv i st :
  i < length buf → pp_inv i st →
  ∃ st' i', pp_body buf (length buf) i st = Some (st', i') ∧
    i ≤ i' < length buf ∧ pp_inv (S i') st' ∧
    url (pp_e st') = url (pp_e st) ∧ desc (pp_e st') = desc (pp_e st).
Proof.
  intros Hi (Hstart & Hnext & Hdest & Hfirst & Hname & Hall).
  unfold pp_body.
  destruct (pp_token_defined buf i Hi) as (ty & sk & -> & Hsk).
  cbn [mbind option_bind].
  destruct (decide (ty ≠ 0%Z)) as [Hty|Hty]; cbn [pp_next_dest pp_dest pp_start pp_e pp_v].
  - (* a comparator: the text before it is stored *)
    rewrite decide_True by (left; done).
    destruct (pp_dest st) as [d|] eqn:Hd; [|specialize (Hdest eq_refl); lia].
    cbn [mbind option_bind]. unfold strndup.
    rewrite decide_True by lia. cbn [mbind option_bind].
    assert ((Z.of_nat i - Z.of_nat (pp_start st) <? 0)%Z = false) as ->
      by (apply Z.ltb_ge; lia).
    eexists _, _. split; [reflexivity|].
    split; [destruct Hsk as [->|(-> & _ & ?)]; lia|].
    split; [|by destruct d, (pp_v st)].
    unfold pp_inv; cbn [pp_next_dest pp_dest pp_start pp_e pp_v].
    repeat split.
    + lia.
    + destruct (pp_v st); done.
    + destruct (pp_v st); done.
    + intros _. destruct d; [by destruct (pp_v st)|..].
      all: destruct (pp_v st); simpl; apply Hname; done.
    + apply all_strings_store; [|by apply all_strings_store_type].
      apply window_P. lia.
  - (* an ordinary byte *)
    assert (ty = 0%Z) as -> by (destruct (decide (ty = 0%Z)); [done|tauto]).
    assert (sk = 0) as -> by (destruct Hsk as [->|(_ & ? & _)]; done).
    rewrite Hnext.
    destruct (decide (None ≠ None ∨ i = length buf - 1)) as [[?|Hlast]|Hnot]; [done|..].
    + destruct (pp_dest st) as [d|] eqn:Hd; [|specialize (Hdest eq_refl); lia].
      cbn [mbind option_bind]. unfold strndup.
      rewrite decide_True by lia. cbn [mbind option_bind].
      assert ((Z.of_nat i - Z.of_nat (pp_start st) <? 0)%Z = false) as ->
        by (apply Z.ltb_ge; lia).
      eexists _, _. split; [reflexivity|].
      split; [lia|]. split; [|by destruct d].
      unfold pp_inv; cbn [pp_next_dest pp_dest pp_start pp_e pp_v].
      repeat split; try done; try lia.
      * intros _. destruct d; [done|..]; simpl; apply Hname; done.
      * apply all_strings_store; [|done]. apply window_P. lia.
    + eexists _, _. split; [reflexivity|].
      split; [lia|]. split; [|done].
      unfold pp_inv. repeat split; try done; try lia.
      intros Hd. specialize (Hdest Hd). lia.
Qed.

Lemma pp_loop_inv fuel : ∀ i st,
  length buf - i ≤ fuel → i ≤ length buf → pp_inv i st →
  ∃ st', pp_loop fuel buf (length buf) i st = Some st' ∧
    pkgname (pp_e st') ≠ None ∧ all_strings P (pp_e st') ∧
    url (pp_e st') = url (pp_e st) ∧ desc (pp_e st') = desc (pp_e st).
Proof.
  induction fuel as [|fuel IH]; intros i st Hfuel Hi Hinv.
  - assert (i = length buf) as -> by lia. simpl.
    rewrite decide_False by lia. exists st.
    destruct Hinv as (_ & _ & _ & Hfirst & Hname & Hall).
    repeat split; try done. apply Hname. intros Hd. specialize (Hfirst Hd). lia.
  - simpl. case_decide as Hlt.
    + destruct (pp_body_inv i st Hlt Hinv) as (st1 & i1 & -> & Hi1 & Hinv1 & Hu & Hd).
      cbn [mbind option_bind].
      destruct (IH (S i1) st1) as (st' & -> & ? & ? & ? & ?); [lia|lia|done|].
      exists st'. repeat split; try done; congruence.
    + exists st. destruct Hinv as (_ & _ & _ & Hfirst & Hname & Hall).
      repeat split; try done. apply Hname. intros Hd. specialize (Hfirst Hd). lia.
Qed.

(** [parse_pattern] over a whole line: defined, the name is set, the
    strings it stores satisfy [P], and the other fields are untouched. *)
Lemma parse_pattern_inv x :
  0 < length buf → all_strings P x →
  ∃ x', parse_pattern x buf (length buf) = Some x' ∧
    pkgname x' ≠ None ∧ all_strings P x' ∧ url x' = url x ∧ desc x' = desc x.
Proof.
  intros Hlen Hx. unfold parse_pattern.
  destruct (pp_loop_inv (length buf) 0 (mk_pp x 0 (Some dest_pkgname) None at_v1))
    as (st' & -> & ? & ? & ? & ?); [lia|lia| |by exists (pp_e st')].
  unfold pp_inv; simpl. repeat split; try done; lia.
Qed.

End parse_pattern_invariant.

(* ================================================================= *)
(** ** The parser: columns and lines *)

(** The number of columns [strsep] finds in a line: one more than the
    separators before the first NUL. *)
Fixpoint nfields (l : list ascii) : nat :=
  match l with
  | [] => 1
  | c :: l' =>
      if decide (c = NUL) then 1
      else if decide (c = "|"%char) then S (nfields l') else nfields l'
  end.

(** A line that is no comment. *)
Definition is_entry_line (l : list ascii) : Prop := first_char l ≠ "#"%char.

#[local] Instance is_entry_line_dec l : Decision (is_entry_line l).
Proof. unfold is_entry_line. apply _. Defined.

Lemma columns_unfold fuel linelen buf line column_id x :
  columns (S fuel) linelen buf line column_id x =
  match strsep buf line with
  | None => Some x
  | Some (column, buf', line') =>
      x' ← match column_id with
           | 0 => parse_pattern x (drop column buf') linelen
           | 1 => s ← strdup buf' column;
                  Some (mk_audit_entry (pkgname x) (v1 x) (v2 x) (Some s) (desc x))
           | 2 => s ← strdup buf' column;
                  Some (mk_audit_entry (pkgname x) (v1 x) (v2 x) (url x) (Some s))
           | _ => Some x
           end;
      columns fuel linelen buf' line' ((column_id + 1) mod 256) x'
  end.
Proof. reflexivity. Qed.

Lemma columns_done fuel linelen buf column_id x :
  columns fuel linelen buf None column_id x = Some x.
Proof. by destruct fuel. Qed.

Lemma nfields_pos l : 1 ≤ nfields l.
Proof. induction l; simpl; [lia|]. repeat case_decide; lia. Qed.

Lemma span_len_le l : span_len l ≤ length l.
Proof. induction l; simpl; [lia|]. case_decide; simpl; lia. Qed.

(** Where the scan of [strsep] stops: at a separator, with one column
    less to find behind it, or at the end of the string. *)
Lemma span_len_stop l :
  (l !! span_len l = Some "|"%char ∧
     nfields l = S (nfields (drop (S (span_len l)) l))) ∨
  (l !! span_len l ≠ Some "|"%char ∧ nfields l = 1).
Proof.
  induction l as [|c l IH]; simpl; [by right|].
  destruct (decide (c = "|"%char ∨ c = NUL)) as [[-> | ->] | Hc]; simpl.
  - by left.
  - by right.
  - rewrite decide_False by tauto. rewrite decide_False by tauto. done.
Qed.

Lemma strsep_spec buf s :
  s ≤ length buf →
  let p := s + span_len (drop s buf) in
  (buf !! p = Some "|"%char ∧
     strsep buf (Some s) = Some (s, <[p := NUL]> buf, Some (S p)) ∧
     nfields (drop s buf) = S (nfields (drop (S p) buf))) ∨
  (strsep buf (Some s) = Some (s, buf, None) ∧ nfields (drop s buf) = 1).
Proof.
  intros Hs p. unfold strsep. cbn [mbind option_bind]. fold p.
  destruct (span_len_stop (drop s buf)) as [[Hp Hn]|[Hp Hn]];
    rewrite lookup_drop in Hp; fold p in Hp.
  - left. rewrite Hp, decide_True by done. split; [done|]. split; [done|].
    rewrite Hn, drop_drop.
    by replace (s + S (span_len (drop s buf))) with (S p) by (unfold p; lia).
  - right. split; [|done].
    destruct (buf !! p) as [c|]; [|done]. case_decide; [congruence|done].
Qed.


(** The columns after the third, as long as the column counter does not
    wrap: each is an extra column, warned about and dropped. *)
Lemma columns_extra fuel : ∀ linelen buf s column_id x,
  length buf - s < fuel → s ≤ length buf →
  3 ≤ column_id → column_id + nfields (drop s buf) ≤ 256 →
  columns fuel linelen buf (Some s) column_id x = Some x.
Proof.
  induction fuel as [|fuel IH]; intros linelen buf s column_id x Hfuel Hs Hid Hn;
    [lia|].
  rewrite columns_unfold.
  assert (∀ y : option audit_entry,
    match column_id with
    | 0 | 1 | 2 => y
    | _ => Some x
    end = Some x) as Hcol.
  { intros y. destruct column_id as [|[|[|k]]]; [lia|lia|lia|done]. }
  destruct (strsep_spec buf s Hs) as [(Hp & -> & Hnf) | [-> Hnf] ].
  - set (p := s + span_len (drop s buf)) in *.
    assert (p < length buf) as Hplt by (by eapply lookup_lt_Some).
    destruct column_id as [|[|[|k]]]; [lia|lia|lia|].
    cbn [mbind option_bind].
    pose proof (nfields_pos (drop (S p) buf)) as Hpos.
    rewrite Nat.mod_small by lia.
    apply IH; rewrite ?length_insert; try lia.
    rewrite drop_insert_lt by lia. lia.
  - destruct column_id as [|[|[|k]]]; [lia|lia|lia|].
    cbn [mbind option_bind]. apply columns_done.
Qed.

Lemma nfields_field c k :
  Forall (λ a, a ≠ "|"%char ∧ a ≠ NUL) c →
  nfields (c ++ "|"%char :: k) = S (nfields k).
Proof.
  induction 1 as [|a c [? ?] _ IH]; [reflexivity|].
  cbn [app nfields]. repeat case_decide; done.
Qed.



(** The list after the loop over the lines: the entries of the lines that
    are no comments, the last line's first. *)
Lemma parse_lines_spec ls : ∀ h,
  parse_lines ls h =
  xs ← mapM entry_of_line (filter is_entry_line ls); Some (reverse xs ++ h).
Proof.
  induction ls as [|l ls IH]; intros h; [done|].
  simpl. unfold parse_line.
  destruct (decide (first_char l = "#"%char)) as [Hc|Hc].
  - cbn [mbind option_bind]. rewrite filter_cons_False by (by intros []).
    apply IH.
  - rewrite filter_cons_True by done. cbn [mapM].
    destruct (entry_of_line l) as [x|]; cbn [mbind option_bind]; [|done].
    rewrite IH. destruct (mapM _ _) as [xs|]; cbn [mbind option_bind]; [|done].
    change (Some (reverse xs ++ x :: h) = Some (reverse (x :: xs) ++ h)).
    by rewrite reverse_cons, <- app_assoc.
Qed.

Lemma parse_db_spec contents errno h :
  parse_db (fopen_FILE contents) errno h =
  xs ← mapM entry_of_line (filter is_entry_line (getlines contents));
  Some (errno, EPKG_OK, reverse xs ++ h).
Proof.
  unfold parse_db. rewrite parse_lines_spec.
  by destruct (mapM _ _).
Qed.



(* ================================================================= *)
(** ** The parser: what a line becomes *)

(** C7: the scan for comparators is not confined to the name
    specification.  [parse_db] hands [parse_pattern] the length of the
    whole line ([linelen]), so the scan runs on through the URL and the
    description: in the line [foo|http://example/adv?id=1|text], whose
    name specification [foo] holds no comparator, the [=] of the URL is
    taken for one and the entry gets the lower bound [= "1|text"]. *)
Theorem parse_pattern_scans_whole_line :
  entry_of_line (bytes "foo|http://example/adv?id=1|text" ++ [NL]) =
  Some (mk_audit_entry (Some (bytes "foo"))
          (mk_version_entry (Some (bytes "1|text")) EQ) zero_version
          (Some (bytes "http://example/adv?id=1"))
          (Some (bytes "text" ++ [NL]))).
Proof. vm_compute. reflexivity. Qed.

(** The same with a range in the name specification: a [<] in the
    description replaces the upper bound. *)
Lemma parse_pattern_overwrites_bound :
  entry_of_line (bytes "bar>=1<2|u|a<b" ++ [NL]) =
  Some (mk_audit_entry (Some (bytes "bar"))
          (mk_version_entry (Some (bytes "1")) GTE)
          (mk_version_entry (Some (bytes "b")) LT)
          (Some (bytes "u")) (Some (bytes "a<b" ++ [NL]))).
Proof. vm_compute. reflexivity. Qed.

(** A byte of a field: no separator, no NUL, no newline. *)
Definition field_byte (a : ascii) : Prop :=
  a ≠ "|"%char ∧ a ≠ NUL ∧ a ≠ NL.

Lemma span_len_field c k :
  Forall (λ a, a ≠ "|"%char ∧ a ≠ NUL) c →
  span_len (c ++ k) = length c + span_len k.
Proof.
  induction 1 as [|a c [? ?] _ IH]; simpl; [done|].
  rewrite decide_False by tauto. by rewrite IH.
Qed.

Lemma strsep_field pre c rest :
  Forall (λ a, a ≠ "|"%char ∧ a ≠ NUL) c →
  strsep (pre ++ c ++ "|"%char :: rest) (Some (length pre)) =
  Some (length pre, pre ++ c ++ NUL :: rest, Some (S (length pre + length c))).
Proof.
  intros Hc. unfold strsep. cbn [mbind option_bind].
  rewrite drop_app_length, span_len_field by done. simpl.
  rewrite Nat.add_0_r.
  rewrite lookup_app_r, lookup_app_r by lia.
  replace (length pre + length c - length pre - length c) with 0 by lia.
  simpl. rewrite insert_app_r_alt, insert_app_r_alt by lia.
  by replace (length pre + length c - length pre - length c) with 0 by lia.
Qed.

Lemma strsep_first c rest :
  Forall (λ a, a ≠ "|"%char ∧ a ≠ NUL) c →
  strsep (c ++ "|"%char :: rest) (Some 0) =
  Some (0, c ++ NUL :: rest, Some (S (length c))).
Proof. exact (strsep_field [] c rest). Qed.

Lemma strsep_last pre c :
  Forall (λ a, a ≠ "|"%char ∧ a ≠ NUL) c →
  strsep (pre ++ c) (Some (length pre)) = Some (length pre, pre ++ c, None).
Proof.
  intros Hc. unfold strsep. cbn [mbind option_bind].
  rewrite drop_app_length.
  rewrite <- (app_nil_r c) at 1. rewrite span_len_field by done. simpl.
  rewrite Nat.add_0_r, lookup_ge_None_2; [done|].
  rewrite length_app. lia.
Qed.

Lemma window_no_NL body start n :
  NL ∉ body → start + n < length (body ++ [NL]) →
  NL ∉ cstr (take n (drop start (body ++ [NL]))).
Proof.
  intros Hbody Hlen Hin. apply cstr_subseteq, elem_of_window in Hin
    as (j & Hj & Hlook).
  rewrite length_app in Hlen. simpl in Hlen.
  rewrite lookup_app_l in Hlook by lia.
  apply Hbody. by eapply list_elem_of_lookup_2.
Qed.

Lemma field_bytes_nosep c :
  Forall field_byte c → Forall (λ a, a ≠ "|"%char ∧ a ≠ NUL) c.
Proof.
  intros Hc. eapply Forall_impl; [exact Hc|]. unfold field_byte. tauto.
Qed.

Lemma field_bytes_no c :
  Forall field_byte c → (NUL ∉ c) ∧ (NL ∉ c).
Proof.
  intros Hc. split; intros Hin; rewrite Forall_forall in Hc;
    apply Hc in Hin; unfold field_byte in Hin; tauto.
Qed.

Ltac solve_length :=
  repeat (progress (rewrite ?length_app; simpl)); lia.

(** C10, the amended claim: a newline-terminated line of two fields keeps
    its newline at the end of the URL (the description stays NULL), one of
    three fields keeps it at the end of the description; in both cases
    neither the name pattern nor a version bound contains a newline.  On a
    line of four to 256 fields the newline ends an extra column, which is
    dropped: the URL and the description are the second and the third
    field as written, and no string stored holds a newline. *)
Theorem newline_kept_in_last_field (c0 c1 c2 : cstring) :
  Forall field_byte c0 → Forall field_byte c1 → Forall field_byte c2 →
  (∃ x, entry_of_line (c0 ++ "|"%char :: c1 ++ [NL]) = Some x ∧
     url x = Some (c1 ++ [NL]) ∧ desc x = None ∧
     all_strings (λ s, NL ∉ s) x) ∧
  (∃ x, entry_of_line (c0 ++ "|"%char :: c1 ++ "|"%char :: c2 ++ [NL]) = Some x ∧
     url x = Some c1 ∧ desc x = Some (c2 ++ [NL]) ∧
     all_strings (λ s, NL ∉ s) x) ∧
  (∀ rest, NL ∉ rest →
     nfields (c0 ++ "|"%char :: c1 ++ "|"%char :: c2 ++ "|"%char :: rest ++ [NL])
       ≤ 256 →
     ∃ x, entry_of_line
            (c0 ++ "|"%char :: c1 ++ "|"%char :: c2 ++ "|"%char :: rest ++ [NL])
          = Some x ∧
       url x = Some c1 ∧ desc x = Some c2 ∧
       all_strings (λ s, NL ∉ s) x ∧
       (∀ s, url x = Some s ∨ desc x = Some s → NL ∉ s)).
Proof.
  intros H0 H1 H2.
  destruct (field_bytes_no _ H0) as [Hz0 Hn0], (field_bytes_no _ H1) as [Hz1 Hn1],
    (field_bytes_no _ H2) as [Hz2 Hn2].
  apply field_bytes_nosep in H0, H1, H2.
  assert (Forall (λ a, a ≠ "|"%char ∧ a ≠ NUL) [NL]) as HNL
    by (by repeat constructor).
  assert (all_strings (λ s, NL ∉ s) zero_entry) as Hzero.
  { intros s. unfold parsed_strings; simpl.
    rewrite !elem_of_cons, elem_of_nil. naive_solver. }
  split; [|split].
  - unfold entry_of_line. rewrite columns_unfold.
    rewrite (strsep_first c0 (c1 ++ [NL]) H0).
    rewrite drop_0.
    set (buf := c0 ++ NUL :: c1 ++ [NL]).
    assert (length (c0 ++ "|"%char :: c1 ++ [NL]) = length buf) as ->
      by (unfold buf; solve_length).
    destruct (parse_pattern_inv buf (λ s, NL ∉ s)) with (x := zero_entry)
      as (x1 & -> & _ & Hall & Hu & Hd); [| |done|].
    { intros start n Hlen.
      replace buf with ((c0 ++ NUL :: c1) ++ [NL])
        by (unfold buf; by rewrite <- app_assoc).
      apply window_no_NL.
      - rewrite elem_of_app, elem_of_cons. intros [?|[?|?]]; done.
      - by rewrite <- app_assoc. }
    { unfold buf. solve_length. }
    cbn [mbind option_bind]. change ((0 + 1) mod 256) with 1.
    assert (length buf = S (length c0 + length c1 + 1)) as ->
      by (unfold buf; solve_length).
    rewrite columns_unfold.
    replace buf with ((c0 ++ [NUL]) ++ (c1 ++ [NL]))
      by (unfold buf; by rewrite <- app_assoc).
    replace (S (length c0)) with (length (c0 ++ [NUL]))
      by solve_length.
    rewrite strsep_last by (by apply Forall_app).
    unfold strdup. rewrite decide_True by solve_length.
    rewrite drop_app_length, cstr_id
      by (rewrite elem_of_app, list_elem_of_singleton; intros [?|?]; done).
    cbn [mbind option_bind]. rewrite columns_done.
    eexists. split; [reflexivity|]. simpl.
    split; [done|]. split; [done|].
    intros s Hs. by apply Hall.
  - unfold entry_of_line. rewrite columns_unfold.
    rewrite (strsep_first c0 (c1 ++ "|"%char :: c2 ++ [NL]) H0).
    rewrite drop_0.
    set (buf := c0 ++ NUL :: c1 ++ "|"%char :: c2 ++ [NL]).
    assert (length (c0 ++ "|"%char :: c1 ++ "|"%char :: c2 ++ [NL]) = length buf)
      as -> by (unfold buf; solve_length).
    destruct (parse_pattern_inv buf (λ s, NL ∉ s)) with (x := zero_entry)
      as (x1 & -> & _ & Hall & Hu & Hd); [| |done|].
    { intros start n Hlen.
      replace buf with ((c0 ++ NUL :: c1 ++ "|"%char :: c2) ++ [NL])
        by (unfold buf; rewrite <- ?app_assoc; simpl; rewrite <- ?app_assoc;
            reflexivity).
      apply window_no_NL.
      - rewrite elem_of_app, elem_of_cons, elem_of_app, elem_of_cons.
        intros [?|[?|[?|[?|?]]]]; done.
      - revert Hlen. unfold buf. solve_length. }
    { unfold buf. solve_length. }
    cbn [mbind option_bind]. change ((0 + 1) mod 256) with 1.
    assert (length buf = S (S (length c0 + length c1 + length c2 + 1))) as ->.
    { unfold buf. solve_length. }
    rewrite columns_unfold.
    replace buf with ((c0 ++ [NUL]) ++ c1 ++ "|"%char :: c2 ++ [NL])
      by (unfold buf; by rewrite <- app_assoc).
    replace (S (length c0)) with (length (c0 ++ [NUL]))
      by solve_length.
    rewrite strsep_field by done.
    unfold strdup at 1. rewrite decide_True by solve_length.
    rewrite drop_app_length, cstr_app_NUL by done.
    cbn [mbind option_bind]. change ((1 + 1) mod 256) with 2.
    rewrite columns_unfold.
    replace ((c0 ++ [NUL]) ++ c1 ++ NUL :: c2 ++ [NL])
      with ((c0 ++ [NUL] ++ c1 ++ [NUL]) ++ (c2 ++ [NL]))
      by (rewrite <- ?app_assoc; simpl; rewrite <- ?app_assoc; reflexivity).
    replace (S (length (c0 ++ [NUL]) + length c1))
      with (length (c0 ++ [NUL] ++ c1 ++ [NUL]))
      by solve_length.
    rewrite strsep_last by (by apply Forall_app).
    unfold strdup. rewrite decide_True by solve_length.
    rewrite drop_app_length, cstr_id
      by (rewrite elem_of_app, list_elem_of_singleton; intros [?|?]; done).
    cbn [mbind option_bind]. rewrite columns_done.
    eexists. split; [reflexivity|]. simpl.
    split; [done|]. split; [done|].
    intros s Hs. by apply Hall.
  - intros rest Hrest Hcols.
    rewrite !nfields_field in Hcols by done.
    unfold entry_of_line. rewrite columns_unfold.
    rewrite (strsep_first c0 (c1 ++ "|"%char :: c2 ++ "|"%char :: rest ++ [NL]) H0).
    rewrite drop_0.
    set (buf := c0 ++ NUL :: c1 ++ "|"%char :: c2 ++ "|"%char :: rest ++ [NL]).
    assert (length (c0 ++ "|"%char :: c1 ++ "|"%char :: c2 ++ "|"%char ::
                    rest ++ [NL]) = length buf)
      as -> by (unfold buf; solve_length).
    destruct (parse_pattern_inv buf (λ s, NL ∉ s)) with (x := zero_entry)
      as (x1 & -> & _ & Hall & Hu & Hd); [| |done|].
    { intros start n Hlen.
      replace buf
        with ((c0 ++ NUL :: c1 ++ "|"%char :: c2 ++ "|"%char :: rest) ++ [NL])
        by (unfold buf; rewrite <- ?app_assoc; simpl; rewrite <- ?app_assoc;
            simpl; rewrite <- ?app_assoc; reflexivity).
      apply window_no_NL.
      - rewrite elem_of_app, elem_of_cons, elem_of_app, elem_of_cons,
          elem_of_app, elem_of_cons.
        intros [?|[?|[?|[?|[?|[?|?]]]]]]; done.
      - revert Hlen. unfold buf. solve_length. }
    { unfold buf. solve_length. }
    cbn [mbind option_bind]. change ((0 + 1) mod 256) with 1.
    assert (length buf
            = S (S (S (length c0 + length c1 + length c2 + length rest + 1))))
      as Hlen.
    { unfold buf. solve_length. }
    rewrite Hlen. rewrite columns_unfold.
    replace buf
      with ((c0 ++ [NUL]) ++ c1 ++ "|"%char :: c2 ++ "|"%char :: rest ++ [NL])
      by (unfold buf; by rewrite <- app_assoc).
    replace (S (length c0)) with (length (c0 ++ [NUL])) by solve_length.
    rewrite strsep_field by done.
    unfold strdup at 1. rewrite decide_True by solve_length.
    rewrite drop_app_length, cstr_app_NUL by done.
    cbn [mbind option_bind]. change ((1 + 1) mod 256) with 2.
    rewrite columns_unfold.
    replace ((c0 ++ [NUL]) ++ c1 ++ NUL :: c2 ++ "|"%char :: rest ++ [NL])
      with ((c0 ++ [NUL] ++ c1 ++ [NUL]) ++ c2 ++ "|"%char :: (rest ++ [NL]))
      by (rewrite <- ?app_assoc; simpl; rewrite <- ?app_assoc; reflexivity).
    replace (S (length (c0 ++ [NUL]) + length c1))
      with (length (c0 ++ [NUL] ++ c1 ++ [NUL])) by solve_length.
    rewrite strsep_field by done.
    unfold strdup. rewrite decide_True by solve_length.
    rewrite drop_app_length, cstr_app_NUL by done.
    cbn [mbind option_bind]. change ((2 + 1) mod 256) with 3.
    rewrite columns_extra.
    + eexists. split; [reflexivity|]. simpl.
      split; [done|]. split; [done|]. split; [intros s Hs; by apply Hall|].
      intros s [[= <-] | [= <-] ]; done.
    + solve_length.
    + solve_length.
    + lia.
    + replace ((c0 ++ [NUL] ++ c1 ++ [NUL]) ++ c2 ++ NUL :: rest ++ [NL])
        with ((c0 ++ [NUL] ++ c1 ++ [NUL] ++ c2 ++ [NUL]) ++ (rest ++ [NL]))
        by (rewrite <- ?app_assoc; simpl; rewrite <- ?app_assoc; simpl;
            rewrite <- ?app_assoc; reflexivity).
      replace (S (length (c0 ++ [NUL] ++ c1 ++ [NUL]) + length c2))
        with (length (c0 ++ [NUL] ++ c1 ++ [NUL] ++ c2 ++ [NUL]))
        by solve_length.
      rewrite drop_app_length. lia.
Qed.

Lemma field_bytes_example :
  Forall field_byte (bytes "foo>=1.0<1.2") ∧ Forall field_byte (bytes "http://example/adv") ∧
  Forall field_byte (bytes "text").
Proof. repeat split; repeat constructor; done. Qed.

(** The amended claim on a line of two fields, on one of three and on one
    of five. *)
Lemma newline_kept_in_last_field_witness :
  (∃ x, entry_of_line (bytes "foo>=1.0<1.2" ++ "|"%char ::
                       bytes "http://example/adv" ++ [NL]) = Some x ∧
     url x = Some (bytes "http://example/adv" ++ [NL]) ∧ desc x = None ∧
     all_strings (λ s, NL ∉ s) x) ∧
  (∃ x, entry_of_line (bytes "foo>=1.0<1.2" ++ "|"%char ::
                       bytes "http://example/adv" ++ "|"%char ::
                       bytes "text" ++ [NL]) = Some x ∧
     url x = Some (bytes "http://example/adv") ∧
     desc x = Some (bytes "text" ++ [NL]) ∧
     all_strings (λ s, NL ∉ s) x) ∧
  (∃ x, entry_of_line (bytes "foo>=1.0<1.2" ++ "|"%char ::
                       bytes "http://example/adv" ++ "|"%char ::
                       bytes "text" ++ "|"%char ::
                       bytes "extra|more" ++ [NL]) = Some x ∧
     url x = Some (bytes "http://example/adv") ∧
     desc x = Some (bytes "text") ∧
     all_strings (λ s, NL ∉ s) x ∧
     (∀ s, url x = Some s ∨ desc x = Some s → NL ∉ s)).
Proof.
  destruct (newline_kept_in_last_field _ _ _
              (proj1 field_bytes_example)
              (proj1 (proj2 field_bytes_example))
              (proj2 (proj2 field_bytes_example))) as (H2 & H3 & Hmore).
  split; [exact H2|]. split; [exact H3|].
  apply (Hmore (bytes "extra|more")); compute_done.
Defined.

(** C10 as stated fails on a line of four fields: the newline ends the
    fourth, which [parse_db] drops ("extra column"), and the last field it
    stores, the description, is left without it. *)
Lemma extra_column_takes_newline :
  entry_of_line (bytes "a|u|d|x" ++ [NL]) =
  Some (mk_audit_entry (Some (bytes "a")) zero_version zero_version
          (Some (bytes "u")) (Some (bytes "d"))).
Proof. vm_compute. reflexivity. Qed.

(* ================================================================= *)
(** ** The parser: outcomes of parse_db *)


(* ================================================================= *)
(** ** The sort key *)

(** The literal prefix of an array element: the first [noglob_len] bytes
    of its name. *)
Definition literal_prefix (x : audit_entry_sorted) : cstring :=
  take (noglob_len x) (name_of (e x)).

(** The order of the keys: [p] is before [q] when [p] has the smaller byte
    at the first index where they differ, or when [p] is a strict prefix
    of [q] (equal bytes, the shorter first). *)
Inductive key_lt : cstring → cstring → Prop :=
  | key_lt_prefix c q : key_lt [] (c :: q)
  | key_lt_byte c d p q : (uchar c < uchar d)%Z → key_lt (c :: p) (d :: q)
  | key_lt_tail c p q : key_lt p q → key_lt (c :: p) (c :: q).

Definition key_le (p q : cstring) : Prop := p = q ∨ key_lt p q.

(** An array element as [preprocess_db] makes it. *)
Definition well_formed (x : audit_entry_sorted) : Prop :=
  ∃ s, pkgname (e x) = Some s ∧ noglob_len x = str_noglob_len s.

(** [audit_entry_compare] as a function of the two keys. *)
Definition key_cmp (p q : cstring) : Z :=
  let r := strncmp p q (length p `min` length q) in
  if decide (r = 0%Z) then
    if decide (length p < length q) then (-1)%Z
    else if decide (length q < length p) then 1%Z else 0%Z
  else r.

Lemma uchar_inj c d : uchar c = uchar d → c = d.
Proof.
  unfold uchar. intros H. apply N2Z.inj in H.
  rewrite <- (ascii_N_embedding c), <- (ascii_N_embedding d). by rewrite H.
Qed.

Lemma str_noglob_len_le s : str_noglob_len s ≤ length s.
Proof. induction s as [|c s IH]; simpl; [lia|]. destruct (is_glob_char c); simpl; lia. Qed.

Lemma strncmp_take_l n : ∀ k s t, n ≤ k → strncmp (take k s) t n = strncmp s t n.
Proof.
  induction n as [|n IH]; intros k s t Hk; [done|].
  destruct k as [|k]; [lia|].
  destruct s as [|c s], t as [|d t]; simpl; try done.
  case_decide; [|done]. apply IH. lia.
Qed.

Lemma strncmp_take_r n : ∀ k s t, n ≤ k → strncmp s (take k t) n = strncmp s t n.
Proof.
  induction n as [|n IH]; intros k s t Hk; [done|].
  destruct k as [|k]; [lia|].
  destruct s as [|c s], t as [|d t]; simpl; try done.
  case_decide; [|done]. apply IH. lia.
Qed.

Lemma well_formed_len x : well_formed x → noglob_len x ≤ length (name_of (e x)).
Proof.
  intros (s & Hs & ->). unfold name_of. rewrite Hs. apply str_noglob_len_le.
Qed.

Lemma audit_entry_compare_key a b :
  well_formed a → well_formed b →
  audit_entry_compare a b = key_cmp (literal_prefix a) (literal_prefix b).
Proof.
  intros Ha%well_formed_len Hb%well_formed_len.
  unfold audit_entry_compare, key_cmp, literal_prefix.
  rewrite !length_take_le by done.
  rewrite strncmp_take_l, strncmp_take_r by lia.
  replace (if decide (noglob_len a < noglob_len b) then noglob_len a else noglob_len b)
    with (noglob_len a `min` noglob_len b) by (case_decide; lia).
  repeat case_decide; lia.
Qed.

Lemma key_lt_irrefl p : ¬ key_lt p p.
Proof. induction p as [|c p IH]; inversion 1; subst; [lia|done]. Qed.

Lemma key_lt_trans p q r : key_lt p q → key_lt q r → key_lt p r.
Proof.
  intros Hpq. revert r. induction Hpq as [c q|c d p q Hcd|c p q Hpq IH];
    intros r Hqr; inversion Hqr; subst.
  - constructor.
  - constructor.
  - constructor. lia.
  - by constructor.
  - by constructor.
  - apply key_lt_tail. by apply IH.
Qed.

Lemma key_lt_asym p q : key_lt p q → ¬ key_lt q p.
Proof. intros H1 H2. apply (key_lt_irrefl p). by eapply key_lt_trans. Qed.

Lemma key_cmp_cons c p q : key_cmp (c :: p) (c :: q) = key_cmp p q.
Proof.
  unfold key_cmp. simpl. destruct (decide (c = c)); [|done].
  repeat case_decide; lia.
Qed.

(** The three outcomes of the comparison. *)
Lemma key_cmp_cases p : ∀ q,
  ((key_cmp p q < 0)%Z ∧ key_lt p q) ∨
  (key_cmp p q = 0%Z ∧ p = q) ∨
  ((0 < key_cmp p q)%Z ∧ key_lt q p).
Proof.
  induction p as [|c p IH]; intros [|d q].
  - right; left. done.
  - left. split; [done|constructor].
  - right; right. split; [done|constructor].
  - destruct (decide (c = d)) as [->|Hcd].
    + rewrite key_cmp_cons.
      destruct (IH q) as [[? ?]|[[? ->]|[? ?]]].
      * left. split; [done|by constructor].
      * right; left. done.
      * right; right. split; [done|by constructor].
    + assert (uchar c ≠ uchar d) as Hu by (intros ?; by apply Hcd, uchar_inj).
      unfold key_cmp. simpl. destruct (decide (c = d)); [done|].
      rewrite decide_False by lia.
      destruct (decide (uchar c < uchar d)%Z).
      * left. split; [lia|by constructor].
      * right; right. split; [lia|constructor; lia].
Qed.

Lemma key_cmp_le p q : (key_cmp p q ≤ 0)%Z ↔ key_le p q.
Proof.
  unfold key_le. destruct (key_cmp_cases p q) as [[? ?]|[[? ->]|[? Hlt]]].
  - split; [auto|lia].
  - split; [auto|lia].
  - split; [lia|]. intros [->|Hpq].
    + by apply key_lt_irrefl in Hlt.
    + by apply key_lt_asym in Hlt.
Qed.

Lemma key_cmp_eq p q : key_cmp p q = 0%Z ↔ p = q.
Proof.
  destruct (key_cmp_cases p q) as [[? Hlt]|[[? ->]|[? Hlt]]].
  - split; [lia|]. intros ->. by apply key_lt_irrefl in Hlt.
  - done.
  - split; [lia|]. intros ->. by apply key_lt_irrefl in Hlt.
Qed.

Lemma key_cmp_antisym p q : Z.sgn (key_cmp p q) = (- Z.sgn (key_cmp q p))%Z.
Proof.
  destruct (key_cmp_cases p q) as [[? H1]|[[? Heq]|[? H1]]];
    destruct (key_cmp_cases q p) as [[? H2]|[[? Heq']|[? H2]]];
    subst; try lia.
  all: try (by apply key_lt_asym in H1).
  all: try (by apply key_lt_irrefl in H1).
  all: try (by apply key_lt_irrefl in H2).
Qed.

Lemma key_le_trans p q r : key_le p q → key_le q r → key_le p r.
Proof.
  intros [->|H1] [->|H2]; unfold key_le; auto.
  right. by eapply key_lt_trans.
Qed.

Lemma key_le_antisym p q : key_le p q → key_le q p → p = q.
Proof.
  intros [->|H1]; [done|]. intros [->|H2]; [done|].
  by apply key_lt_asym in H1.
Qed.

(** The comparison handed to [qsort] is consistent on the array. *)
Lemma audit_entry_compare_consistent l :
  Forall well_formed l → consistent_on audit_entry_compare l.
Proof.
  rewrite Forall_forall. intros Hwf. split.
  - intros a b Ha Hb. rewrite !audit_entry_compare_key by auto.
    apply key_cmp_antisym.
  - intros a b c Ha Hb Hc. rewrite !audit_entry_compare_key by auto.
    rewrite !key_cmp_le. apply key_le_trans.
Qed.

(* ================================================================= *)
(** ** The index builder: the sorted array *)

(** What the loop over the increments leaves alone. *)
Definition entry_and_len (x : audit_entry_sorted) : audit_entry * nat :=
  (e x, noglob_len x).

Lemma literal_prefix_proj x y :
  entry_and_len x = entry_and_len y → literal_prefix x = literal_prefix y.
Proof. unfold entry_and_len, literal_prefix. by intros [= -> ->]. Qed.

Lemma well_formed_proj x y :
  entry_and_len x = entry_and_len y → well_formed x → well_formed y.
Proof. unfold entry_and_len, well_formed. by intros [= -> ->]. Qed.

Lemma fmap_alter_set_incr k i (ret : list audit_entry_sorted) :
  entry_and_len <$> alter (set_incr k) i ret = entry_and_len <$> ret.
Proof.
  revert i. induction ret as [|x ret IH]; intros [|i]; simpl; try done.
  f_equal. apply IH.
Qed.

Lemma fill_run_proj tofill : ∀ base i ret,
  entry_and_len <$> fill_run base i tofill ret = entry_and_len <$> ret.
Proof.
  induction tofill as [|[|t] IH]; intros base i ret; [done..|].
  change (fill_run base i (S (S t)) ret)
    with (fill_run base (S i) (S t) (alter (set_incr (S (S t))) (base + i) ret)).
  by rewrite IH, fmap_alter_set_incr.
Qed.

Lemma fmap_proj_length (l k : list audit_entry_sorted) :
  entry_and_len <$> l = entry_and_len <$> k → length l = length k.
Proof. intros H. by rewrite <- (length_fmap entry_and_len l), H, length_fmap. Qed.

(** On an array that is not empty the loop ends and changes increments
    only. *)
Lemma incr_loop_defined fuel : ∀ n tofill ret,
  1 ≤ n ≤ length ret → length ret - n ≤ fuel →
  ∃ ret', incr_loop fuel n tofill ret = Some ret' ∧
    entry_and_len <$> ret' = entry_and_len <$> ret.
Proof.
  induction fuel as [|fuel IH]; intros n tofill ret Hn Hfuel.
  - assert (n = length ret) as -> by lia. simpl.
    rewrite lookup_ge_None_2 by lia. rewrite decide_True by done. by exists ret.
  - simpl. destruct (ret !! n) as [cur|] eqn:Hcur.
    + assert (n < length ret) by (by eapply lookup_lt_Some).
      destruct (lookup_lt_is_Some_2 ret (n - 1)) as [prev Hprev]; [lia|].
      rewrite Hprev. cbn [mbind option_bind].
      repeat case_decide.
      * destruct (IH (S n) 1 (fill_run (n - tofill) 0 tofill ret))
          as (ret' & -> & Hret');
          rewrite ?(fmap_proj_length _ _ (fill_run_proj _ _ _ _)); try lia.
        exists ret'. by rewrite Hret', fill_run_proj.
      * destruct (IH (S n) (S tofill) ret) as (ret' & -> & Hret'); try lia.
        by exists ret'.
      * destruct (IH (S n) 1 ret) as (ret' & -> & Hret'); try lia.
        by exists ret'.
    + apply lookup_ge_None in Hcur. rewrite decide_True by lia. by exists ret.
Qed.

(** On the empty array the loop starts by reading [ret[1]], one element
    past the terminator [calloc] made room for. *)
Lemma incr_loop_empty fuel tofill : incr_loop fuel 1 tofill [] = None.
Proof. by destruct fuel. Qed.

Lemma init_sorted_spec h ret :
  init_sorted h = Some ret →
  e <$> ret = h ∧ Forall well_formed ret ∧
  Forall (λ x, next_pfx_incr x = 1) ret.
Proof.
  unfold init_sorted. intros H%mapM_Some_1.
  induction H as [|x y h ret Hxy _ IH]; [by repeat split|].
  destruct IH as (IH1 & IH2 & IH3).
  destruct (pkgname x) as [s|] eqn:Hs; simplify_eq/=.
  repeat split; try constructor; try done.
  by exists s.
Qed.

Lemma init_sorted_defined h :
  Forall (λ x, pkgname x ≠ None) h → is_Some (init_sorted h).
Proof.
  intros Hh. unfold init_sorted.
  destruct (mapM _ h) eqn:Hm; [done|].
  apply mapM_None_1, Exists_exists in Hm as (x & Hx & Hnone).
  rewrite Forall_forall in Hh. specialize (Hh x Hx).
  by destruct (pkgname x).
Qed.

Lemma StronglySorted_lookup {A} (R : relation A) l i j a b :
  StronglySorted R l → i < j → l !! i = Some a → l !! j = Some b → R a b.
Proof.
  intros Hs. revert i j. induction Hs as [|x l Hs IH Hx]; intros i j Hij Hi Hj;
    [done|].
  destruct j as [|j]; [lia|]. destruct i as [|i]; simplify_eq/=.
  - rewrite Forall_forall in Hx. apply Hx. by eapply list_elem_of_lookup_2.
  - apply (IH i j); [lia|done..].
Qed.

Lemma StronglySorted_fmap_on {A B} (R : relation A) (R' : relation B)
    (f : A → B) l :
  (∀ a b, a ∈ l → b ∈ l → R a b → R' (f a) (f b)) →
  StronglySorted R l → StronglySorted R' (f <$> l).
Proof.
  intros Hf Hs. induction Hs as [|x l Hs IH Hx]; simpl; constructor.
  - apply IH. intros a b Ha Hb. apply Hf; by right.
  - rewrite Forall_fmap, Forall_forall. rewrite Forall_forall in Hx.
    intros y Hy. apply Hf; [left|by right|by apply Hx].
Qed.

Section index_builder.
Context `{E : Extern}.

(** What [preprocess_db] returns: the array [qsort] made of the elements
    of the list, up to the increments, and the table read off it. *)
Lemma preprocess_db_spec h ret tbl :
  preprocess_db h = Some (ret, tbl) →
  ∃ ret0, init_sorted h = Some ret0 ∧
    entry_and_len <$> ret = entry_and_len <$> qsort audit_entry_compare ret0 ∧
    ret ≠ [] ∧ tbl = first_byte_idx ret.
Proof.
  unfold preprocess_db. destruct (init_sorted h) as [ret0|]; [|done].
  cbn [mbind option_bind].
  set (sorted := qsort audit_entry_compare ret0).
  destruct sorted as [|x sorted'] eqn:Hsorted.
  { by rewrite incr_loop_empty. }
  rewrite <- Hsorted.
  destruct (incr_loop_defined (length sorted) 1 0 sorted)
    as (ret' & -> & Hret'); [rewrite Hsorted; simpl; lia|lia|].
  cbn [mbind option_bind]. intros Heq.
  assert (ret' = ret) as -> by congruence.
  assert (tbl = first_byte_idx ret) as -> by congruence.
  clear Heq. exists ret0. split; [done|]. split; [done|]. split; [|done].
  intros ->. rewrite Hsorted in Hret'. discriminate Hret'.
Qed.

(** [preprocess_db] returns for every list that is not empty and whose
    entries are named. *)
Lemma preprocess_db_defined h :
  h ≠ [] → Forall (λ x, pkgname x ≠ None) h → is_Some (preprocess_db h).
Proof.
  intros Hne Hnamed. unfold preprocess_db.
  destruct (init_sorted_defined h Hnamed) as [ret0 Hret0]. rewrite Hret0.
  cbn [mbind option_bind].
  set (sorted := qsort audit_entry_compare ret0).
  assert (length sorted = length h) as Hlen.
  { unfold sorted. rewrite (qsort_perm _ ret0).
    apply init_sorted_spec in Hret0 as [<- _]. by rewrite length_fmap. }
  destruct (incr_loop_defined (length sorted) 1 0 sorted)
    as (ret' & -> & Hret'); [|lia|done].
  destruct h; [done|]. simpl in Hlen. lia.
Qed.

(** What the construction gives, in one place: the array holds the entries
    of the list, each with the length of the glob-free prefix of its name,
    in ascending order of the literal prefixes, and the table is computed
    from it. *)
Lemma preprocess_db_index (h : list audit_entry) ret tbl :
  preprocess_db h = Some (ret, tbl) →
  e <$> ret ≡ₚ h ∧ Forall well_formed ret ∧
  StronglySorted key_le (literal_prefix <$> ret) ∧
  tbl = first_byte_idx ret.
Proof.
  intros (ret0 & Hinit & Hproj & _ & Htbl)%preprocess_db_spec.
  apply init_sorted_spec in Hinit as (Hh & Hwf & _).
  set (sorted := qsort audit_entry_compare ret0) in *.
  assert (Forall well_formed sorted) as Hwfs.
  { unfold sorted. by rewrite (qsort_perm _ ret0). }
  assert (literal_prefix <$> ret = literal_prefix <$> sorted) as Hkeys.
  { apply (f_equal (fmap (λ p : audit_entry * nat, take p.2 (name_of p.1))))
      in Hproj. by rewrite <- !list_fmap_compose in Hproj. }
  split; [|split; [|split; [|exact Htbl] ] ].
  - apply (f_equal (fmap fst)) in Hproj.
    rewrite <- !list_fmap_compose in Hproj.
    change (e <$> ret = e <$> sorted) in Hproj.
    rewrite Hproj. unfold sorted. by rewrite (qsort_perm _ ret0), Hh.
  - rewrite Forall_lookup. intros i x Hx.
    assert (∃ y, sorted !! i = Some y ∧ entry_and_len y = entry_and_len x)
      as (y & Hy & Hyx).
    { apply (f_equal (λ l, l !! i)) in Hproj.
      rewrite !list_lookup_fmap, Hx in Hproj. simpl in Hproj.
      destruct (sorted !! i) as [y|] eqn:Hy; simplify_eq/=.
      exists y. split; [done|]. unfold entry_and_len. congruence. }
    apply (well_formed_proj y x Hyx).
    rewrite Forall_lookup in Hwfs. by eapply Hwfs.
  - rewrite Hkeys.
    apply (StronglySorted_fmap_on (λ a b, (audit_entry_compare a b ≤ 0)%Z)).
    + rewrite Forall_forall in Hwfs. intros a b Ha Hb.
      rewrite audit_entry_compare_key by auto. by rewrite key_cmp_le.
    + apply qsort_sorted, audit_entry_compare_consistent.
      unfold sorted in Hwfs. by rewrite (qsort_perm _ ret0) in Hwfs.
Qed.

(** C4: in the array [preprocess_db] returns, whose elements carry the
    entries of the list, each with the length of the glob-free prefix of
    its name, the keys (the literal prefixes) are in ascending order, a
    strict prefix before its extensions, and the elements with one and the
    same literal prefix are contiguous.  The index is built for every list
    of named entries that is not empty. *)
Theorem preprocess_db_sorted (h : list audit_entry) :
  (h ≠ [] → Forall (λ x, pkgname x ≠ None) h → is_Some (preprocess_db h)) ∧
  (∀ ret tbl, preprocess_db h = Some (ret, tbl) →
     e <$> ret ≡ₚ h ∧
     Forall well_formed ret ∧
     StronglySorted key_le (literal_prefix <$> ret) ∧
     (∀ i j k x y z, i ≤ j ≤ k →
        ret !! i = Some x → ret !! j = Some y → ret !! k = Some z →
        literal_prefix x = literal_prefix z →
        literal_prefix y = literal_prefix x)).
Proof.
  split; [apply preprocess_db_defined|].
  intros ret tbl (ret0 & Hinit & Hproj & _ & _)%preprocess_db_spec.
  apply init_sorted_spec in Hinit as (Hh & Hwf & _).
  set (sorted := qsort audit_entry_compare ret0) in *.
  assert (Forall well_formed sorted) as Hwfs.
  { unfold sorted. by rewrite (qsort_perm _ ret0). }
  assert (literal_prefix <$> ret = literal_prefix <$> sorted) as Hkeys.
  { apply (f_equal (fmap (λ p : audit_entry * nat, take p.2 (name_of p.1))))
      in Hproj. by rewrite <- !list_fmap_compose in Hproj. }
  assert (StronglySorted key_le (literal_prefix <$> ret)) as Hsorted.
  { rewrite Hkeys.
    apply (StronglySorted_fmap_on (λ a b, (audit_entry_compare a b ≤ 0)%Z)).
    - rewrite Forall_forall in Hwfs. intros a b Ha Hb.
      rewrite audit_entry_compare_key by auto. by rewrite key_cmp_le.
    - apply qsort_sorted, audit_entry_compare_consistent.
      unfold sorted in Hwfs. by rewrite (qsort_perm _ ret0) in Hwfs. }
  split; [|split; [|split; [done|] ] ].
  - apply (f_equal (fmap fst)) in Hproj.
    rewrite <- !list_fmap_compose in Hproj.
    change (e <$> ret = e <$> sorted) in Hproj.
    rewrite Hproj. unfold sorted. by rewrite (qsort_perm _ ret0), Hh.
  - rewrite Forall_lookup. intros i x Hx.
    assert (∃ y, sorted !! i = Some y ∧ entry_and_len y = entry_and_len x)
      as (y & Hy & Hyx).
    { apply (f_equal (λ l, l !! i)) in Hproj.
      rewrite !list_lookup_fmap, Hx in Hproj. simpl in Hproj.
      destruct (sorted !! i) as [y|] eqn:Hy; simplify_eq/=.
      exists y. split; [done|]. unfold entry_and_len. congruence. }
    apply (well_formed_proj y x Hyx).
    rewrite Forall_lookup in Hwfs. by eapply Hwfs.
  - intros i j k x y z [Hij Hjk] Hx Hy Hz Hxz.
    assert (∀ a b u v, a ≤ b → ret !! a = Some u → ret !! b = Some v →
      key_le (literal_prefix u) (literal_prefix v)) as Hle.
    { intros a b u v Hab Hu Hv. destruct (decide (a = b)) as [->|Hne].
      - left. congruence.
      - apply (StronglySorted_lookup key_le (literal_prefix <$> ret) a b);
          [done|lia|..]; rewrite list_lookup_fmap; [by rewrite Hu|by rewrite Hv]. }
    apply key_le_antisym.
    + rewrite Hxz. exact (Hle j k y z Hjk Hy Hz).
    + exact (Hle i j x y Hij Hx Hy).
Qed.

End index_builder.

(* ================================================================= *)
(** ** The index builder: the first-byte table *)

(** [(size_t)(x.e->pkgname[0])]: the first byte of the name pattern, as
    the table loop and the query read it. *)
Definition first_byte (x : audit_entry_sorted) : Z :=
  size_t_of_char (first_char (name_of (e x))).

(** The index of the first element whose name pattern starts with a byte
    (so read) of at least [n]; the length of the array if there is none. *)
Definition first_at_least (n : Z) (ret : list audit_entry_sorted) : nat :=
  skip_below n ret 0.

Lemma skip_below_shift n l : ∀ k, skip_below n l k = k + skip_below n l 0.
Proof.
  induction l as [|x l IH]; intros k; simpl; [lia|].
  destruct (_ <? n)%Z; [|lia]. rewrite (IH (S k)), (IH 1). lia.
Qed.

Lemma skip_below_resume n m l :
  (n ≤ m)%Z →
  skip_below m (drop (skip_below n l 0) l) (skip_below n l 0) = skip_below m l 0.
Proof.
  intros Hnm. induction l as [|x l IH]; simpl; [done|].
  destruct (_ <? n)%Z eqn:Hn.
  - apply Z.ltb_lt in Hn.
    assert ((size_t_of_char (first_char (name_of (e x))) <? m)%Z = true) as ->
      by (apply Z.ltb_lt; lia).
    rewrite (skip_below_shift n l 1), (skip_below_shift m l 1). simpl.
    rewrite skip_below_shift, <- IH, (skip_below_shift m _ (skip_below n l 0)).
    lia.
  - done.
Qed.

Lemma first_at_least_spec n ret :
  first_at_least n ret ≤ length ret ∧
  (∀ i x, i < first_at_least n ret → ret !! i = Some x → (first_byte x < n)%Z) ∧
  (∀ x, ret !! first_at_least n ret = Some x → (n ≤ first_byte x)%Z).
Proof.
  unfold first_at_least, first_byte.
  induction ret as [|y ret (IH1 & IH2 & IH3)]; simpl.
  - repeat split; [lia|..]; intros; simplify_eq/=.
  - destruct (_ <? n)%Z eqn:Hn.
    + apply Z.ltb_lt in Hn. rewrite skip_below_shift.
      repeat split; [lia|..].
      * intros [|i] x Hi Hx; simplify_eq/=; [done|]. apply (IH2 i); [lia|done].
      * simpl. apply IH3.
    + apply Z.ltb_ge in Hn. repeat split; [lia|..].
      * intros i x Hi. lia.
      * intros x [= <-]. done.
Qed.

Lemma first_at_least_mono n m ret :
  (n ≤ m)%Z → first_at_least n ret ≤ first_at_least m ret.
Proof.
  intros Hnm. unfold first_at_least.
  pose proof (skip_below_resume n m ret Hnm) as H.
  rewrite skip_below_shift in H. lia.
Qed.

Lemma first_byte_nonneg x : (0 ≤ first_byte x)%Z.
Proof.
  unfold first_byte, size_t_of_char, uchar.
  destruct (_ <? 128)%Z eqn:H; [lia|]. apply Z.ltb_ge in H. lia.
Qed.

Lemma first_at_least_0 ret : first_at_least 0 ret = 0.
Proof.
  destruct ret as [|x ret]; [done|]. unfold first_at_least. simpl.
  pose proof (first_byte_nonneg x) as Hx. unfold first_byte in Hx.
  destruct (_ <? 0)%Z eqn:H; [|done]. apply Z.ltb_lt in H. lia.
Qed.

Lemma first_byte_loop_spec ret count : ∀ n i tbl,
  n + count = 256 → 1 ≤ n → length tbl = 256 →
  i = first_at_least (Z.of_nat n - 1) ret →
  (∀ b, b < n → tbl !! b = Some (first_at_least (Z.of_nat b) ret)) →
  ∀ b, b < 256 →
    first_byte_loop count n i ret tbl !! b = Some (first_at_least (Z.of_nat b) ret).
Proof.
  induction count as [|count IH]; intros n i tbl Hn H1 Hlen Hi Htbl b Hb.
  - apply Htbl. lia.
  - simpl. apply IH; try lia.
    + by rewrite length_insert.
    + subst i. unfold first_at_least. rewrite skip_below_resume by lia.
      f_equal. lia.
    + intros b' Hb'. destruct (decide (b' = n)) as [->|Hne].
      * rewrite list_lookup_insert_eq by lia. f_equal.
        subst i. unfold first_at_least. by rewrite skip_below_resume by lia.
      * rewrite list_lookup_insert_ne by done. apply Htbl. lia.
Qed.

(** What the table holds (C6, as the code has it): for every byte value
    [b], the index of the first element of the sorted array whose name
    pattern starts with a byte, read as [(size_t)(char)], of at least [b],
    and the length of the array if there is none; the table never
    decreases. *)
Lemma first_byte_idx_spec ret b :
  b < 256 →
  first_byte_idx ret !! b = Some (first_at_least (Z.of_nat b) ret).
Proof.
  intros Hb. unfold first_byte_idx.
  apply (first_byte_loop_spec ret 255 1 0); try done.
  - simpl. by rewrite first_at_least_0.
  - intros [|b'] Hb'; [|lia]. by rewrite first_at_least_0.
Qed.

Lemma first_byte_idx_mono ret b c i j :
  b ≤ c → c < 256 →
  first_byte_idx ret !! b = Some i → first_byte_idx ret !! c = Some j → i ≤ j.
Proof.
  intros Hbc Hc. rewrite !first_byte_idx_spec by lia. intros [= <-] [= <-].
  apply first_at_least_mono. lia.
Qed.

(* ================================================================= *)
(** ** The index on concrete advisory files *)

(** [exec_audit], lines 575-583 and 605-613: the audit file is parsed and
    the index is built from the list. *)
Definition build_index `{Extern} (fp : fopen_result)
  : option (list audit_entry_sorted * list nat) :=
  '(_, _, h) ← parse_db fp 0 []; preprocess_db h.

(** Two advisories for the same package. *)
Definition dup_db : fopen_result :=
  fopen_FILE (bytes "foo<1.0|u|first" ++ [NL] ++ bytes "foo<2.0|u|second" ++ [NL]).

Definition dup_first : audit_entry :=
  mk_audit_entry (Some (bytes "foo")) (mk_version_entry (Some (bytes "1.0")) LT)
    zero_version (Some (bytes "u")) (Some (bytes "first" ++ [NL])).

Definition dup_second : audit_entry :=
  mk_audit_entry (Some (bytes "foo")) (mk_version_entry (Some (bytes "2.0")) LT)
    zero_version (Some (bytes "u")) (Some (bytes "second" ++ [NL])).

(** One advisory whose name pattern starts with a star. *)
Definition star_db : fopen_result := fopen_FILE (bytes "*ssl|u|d" ++ [NL]).

Definition star_entry : audit_entry :=
  mk_audit_entry (Some (bytes "*ssl")) zero_version zero_version
    (Some (bytes "u")) (Some (bytes "d" ++ [NL])).

Lemma dup_db_parsed : parse_db dup_db 0 [] = Some (0%Z, EPKG_OK, [dup_second; dup_first]).
Proof. vm_compute. reflexivity. Qed.

Lemma star_db_parsed : parse_db star_db 0 [] = Some (0%Z, EPKG_OK, [star_entry]).
Proof. vm_compute. reflexivity. Qed.

Section concrete_indexes.
Context `{E : Extern}.

Lemma dup_db_index :
  ∃ ret, build_index dup_db = Some (ret, first_byte_idx ret) ∧
    (ret = [mk_sorted dup_second 3 1; mk_sorted dup_first 3 1] ∨
     ret = [mk_sorted dup_first 3 1; mk_sorted dup_second 3 1]).
Proof.
  unfold build_index. rewrite dup_db_parsed. cbn [mbind option_bind].
  unfold preprocess_db.
  change (init_sorted [dup_second; dup_first])
    with (Some [mk_sorted dup_second 3 1; mk_sorted dup_first 3 1]).
  cbn [mbind option_bind].
  destruct (Permutation_length_2_inv
    (Permutation_sym (qsort_perm audit_entry_compare
       [mk_sorted dup_second 3 1; mk_sorted dup_first 3 1]))) as [-> | ->].
  - change (incr_loop _ 1 0 [mk_sorted dup_second 3 1; mk_sorted dup_first 3 1])
      with (Some [mk_sorted dup_second 3 1; mk_sorted dup_first 3 1]).
    cbn [mbind option_bind]. eexists. split; [reflexivity|by left].
  - change (incr_loop _ 1 0 [mk_sorted dup_first 3 1; mk_sorted dup_second 3 1])
      with (Some [mk_sorted dup_first 3 1; mk_sorted dup_second 3 1]).
    cbn [mbind option_bind]. eexists. split; [reflexivity|by right].
Qed.

(** C5: two advisories for one package form a run of two elements with
    the literal prefix [foo], and both keep the increment 1 they were
    given at the start: the loop counts the run from 0 ([tofill = 0]) and
    writes increments only when it meets a prefix of another length, which
    never happens at the end of the array.  The claim has 2 for the first
    element. *)
Theorem duplicate_names_keep_increment_1 :
  ∃ ret tbl, build_index dup_db = Some (ret, tbl) ∧
    literal_prefix <$> ret = [bytes "foo"; bytes "foo"] ∧
    next_pfx_incr <$> ret = [1; 1].
Proof.
  destruct dup_db_index as (ret & Hret & Hcases).
  exists ret, (first_byte_idx ret). split; [done|]. clear Hret.
  destruct Hcases as [-> | ->]; split; reflexivity.
Qed.

Lemma star_db_index :
  build_index star_db =
  Some ([mk_sorted star_entry 0 1], first_byte_idx [mk_sorted star_entry 0 1]).
Proof.
  unfold build_index. rewrite star_db_parsed. cbn [mbind option_bind].
  unfold preprocess_db.
  change (init_sorted [star_entry]) with (Some [mk_sorted star_entry 0 1]).
  cbn [mbind option_bind]. by rewrite qsort_singleton.
Qed.

(** C6: the table records where the first bytes of the name patterns
    stand, not those of the literal prefixes.  For the single advisory
    [*ssl], whose literal prefix is empty, no element has a literal prefix
    that starts with a byte, and the claim has the length of the array, 1,
    in every slot; the table has 0 up to the code of the star, 42. *)
Theorem first_byte_table_reads_glob_byte :
  ∃ ret tbl, build_index star_db = Some (ret, tbl) ∧
    length ret = 1 ∧ literal_prefix <$> ret = [[]] ∧
    tbl !! 0 = Some 0 ∧ tbl !! 1 = Some 0 ∧ tbl !! 42 = Some 0 ∧
    tbl !! 43 = Some 1.
Proof.
  eexists _, _. split; [apply star_db_index|]. repeat split.
Qed.

(** C1: the query skips an advisory that matches.  The package name
    [openssl] starts with [o] (111), the table sends the scan to index 1,
    past the only element, and nothing is reported, with or without
    [-q], whatever [fnmatch] would say of [*ssl]. *)
Theorem leading_glob_advisory_skipped (quiet : bool) :
  audit_one quiet star_db (openssl "1.0.1") = Some (EPKG_OK, false, []) ∧
  Ref.fnmatch (bytes "*ssl") (bytes "openssl") = 0%Z ∧
  match_version (bytes "1.0.1") (v1 star_entry) = true ∧
  match_version (bytes "1.0.1") (v2 star_entry) = true.
Proof.
  split; [|by repeat split].
  unfold audit_one. rewrite star_db_parsed. cbn [mbind option_bind].
  pose proof star_db_index as Hidx. unfold build_index in Hidx.
  rewrite star_db_parsed in Hidx. cbn [mbind option_bind] in Hidx.
  rewrite Hidx. cbn [mbind option_bind]. reflexivity.
Qed.

End concrete_indexes.

(* ================================================================= *)
(** ** The order of entries with equal keys *)

Section equal_keys.
Context `{E : Extern}.

(** C8, the amended claim: the entries reach the sort in the reverse of
    the order of their lines ([parse_db] puts each new entry at the head of
    the list), and the sort is libc's [qsort], which promises a sorted
    permutation and nothing on the order of elements that compare equal:
    the index carries the entries of the lines, sorted by key, in the order
    [qsort] gives to the reversed list. *)
Theorem index_is_qsort_of_reversed_lines (contents : list ascii)
    (ret : list audit_entry_sorted) (tbl : list nat) :
  build_index (fopen_FILE contents) = Some (ret, tbl) →
  ∃ xs ret0,
    mapM entry_of_line (filter is_entry_line (getlines contents)) = Some xs ∧
    init_sorted (reverse xs) = Some ret0 ∧ e <$> ret0 = reverse xs ∧
    entry_and_len <$> ret = entry_and_len <$> qsort audit_entry_compare ret0 ∧
    e <$> ret ≡ₚ xs ∧
    StronglySorted key_le (literal_prefix <$> ret).
Proof.
  unfold build_index. rewrite parse_db_spec.
  destruct (mapM _ _) as [xs|]; [|done]. cbn [mbind option_bind].
  rewrite app_nil_r. intros Hpre.
  destruct (preprocess_db_spec _ _ _ Hpre) as (ret0 & Hinit & Hproj & _ & _).
  destruct (preprocess_db_index (reverse xs) ret tbl Hpre)
    as (Hperm & _ & Hsorted & _).
  exists xs, ret0. repeat split; try done.
  - by apply init_sorted_spec in Hinit as [? _].
  - by rewrite Hperm, reverse_Permutation.
Qed.

End equal_keys.

Definition dup_ret : list audit_entry_sorted :=
  [mk_sorted dup_second 3 1; mk_sorted dup_first 3 1].

Lemma dup_db_index_ref :
  @build_index ref_extern dup_db = Some (dup_ret, first_byte_idx dup_ret).
Proof. vm_compute. reflexivity. Qed.

(** The amended claim on the two advisories for [foo], under the reference
    implementation. *)
Lemma index_is_qsort_of_reversed_lines_witness :
  ∃ ret tbl,
    @build_index ref_extern dup_db = Some (ret, tbl) ∧
    ∃ xs ret0,
      mapM entry_of_line
        (filter is_entry_line
           (getlines (bytes "foo<1.0|u|first" ++ [NL] ++
                      bytes "foo<2.0|u|second" ++ [NL]))) = Some xs ∧
      init_sorted (reverse xs) = Some ret0 ∧ e <$> ret0 = reverse xs ∧
      entry_and_len <$> ret
        = entry_and_len <$> Ref.qsort audit_entry_compare ret0 ∧
      e <$> ret ≡ₚ xs ∧
      StronglySorted key_le (literal_prefix <$> ret).
Proof.
  exists dup_ret, (first_byte_idx dup_ret). split; [exact dup_db_index_ref|].
  exact (@index_is_qsort_of_reversed_lines ref_extern _ _ _ dup_db_index_ref).
Defined.

(** C8 as stated fails: the two advisories for [foo] have the same key,
    the first line's entry is second in the list [parse_db] returns, and
    under a sort that keeps equal elements in the order of the array (as
    FreeBSD's [qsort] does on an array this small, by insertion) it is
    second in the index too. *)
Lemma equal_keys_in_reverse_line_order :
  ∃ ret tbl,
    @build_index ref_extern dup_db = Some (ret, tbl) ∧
    literal_prefix <$> ret = [bytes "foo"; bytes "foo"] ∧
    e <$> ret = [dup_second; dup_first].
Proof.
  exists dup_ret, (first_byte_idx dup_ret). split; [exact dup_db_index_ref|].
  by split.
Qed.

(* ================================================================= *)
(** ** The query reports matching advisories only *)

(** The advisory [x] applies to the package [p]: its name pattern matches
    the package name and both its version bounds are satisfied. *)
Definition applies_to `{Extern} (p : pkg) (x : audit_entry) : Prop :=
  ∃ name, pkgname x = Some name ∧ fnmatch name (PKG_NAME p) = 0%Z ∧
    match_version (PKG_VERSION p) (v1 x) = true ∧
    match_version (PKG_VERSION p) (v2 x) = true.

Section query_soundness.
Context `{E : Extern}.
Variable quiet : bool.
Variable ret : list audit_entry_sorted.
Variable p : pkg.

(** What holds of the flag and of the entries reported so far. *)
Definition sound_so_far (acc : bool * list audit_entry) : Prop :=
  Forall (applies_to p) acc.2 ∧
  (∀ x, x ∈ acc.2 → x ∈ e <$> ret) ∧
  (acc.1 = true ↔ acc.2 ≠ []).

Lemma report_sound x acc acc' :
  x ∈ e <$> ret → sound_so_far acc →
  report quiet p x acc = Some acc' → sound_so_far acc'.
Proof.
  intros Hx (Hall & Hsub & Hflag). unfold report.
  destruct (pkgname x) as [name|] eqn:Hname; [|done].
  cbn [mbind option_bind]. case_decide as Hf; [by intros [= <-]|].
  destruct (match_version _ (v1 x)) eqn:H1, (match_version _ (v2 x)) eqn:H2;
    simpl; try (by intros [= <-]).
  intros Hrep. assert (acc' = (true, acc.2 ++ [x])) as ->.
  { destruct quiet; [by injection Hrep|].
    destruct (desc x); [|done]. destruct (url x); [|done].
    simpl in Hrep. by injection Hrep. }
  repeat split; simpl.
  - apply Forall_app. split; [done|]. constructor; [|constructor].
    by exists name.
  - intros y [Hy|Hy%list_elem_of_singleton]%elem_of_app; [by apply Hsub|by subst].
  - intros _ Hnil. by apply app_eq_nil in Hnil as [_ ?].
Qed.

Lemma vuln_run_sound count : ∀ idx i acc acc',
  sound_so_far acc →
  vuln_run quiet count ret idx i p acc = Some acc' → sound_so_far acc'.
Proof.
  induction count as [|count IH]; intros idx i acc acc' Hacc; simpl.
  - by intros [= <-].
  - destruct (ret !! (idx + i)) as [x|] eqn:Hx; [|done].
    cbn [mbind option_bind].
    destruct (report quiet p (e x) acc) as [acc1|] eqn:Hrep; [|done].
    cbn [mbind option_bind]. apply IH.
    eapply report_sound; [|done..].
    apply list_elem_of_fmap. exists x. split; [done|].
    by eapply list_elem_of_lookup_2.
Qed.

Lemma vuln_loop_sound fuel : ∀ idx acc acc',
  sound_so_far acc →
  vuln_loop quiet fuel ret idx p acc = Some acc' → sound_so_far acc'.
Proof.
  induction fuel as [|fuel IH]; intros idx acc acc' Hacc; simpl.
  - destruct (ret !! idx); [done|]. case_decide; [|done]. by intros [= <-].
  - destruct (ret !! idx) as [a|]; [|case_decide; [|done]; by intros [= <-]].
    destruct (pkgname (e a)) as [name|]; [|done]. cbn [mbind option_bind].
    repeat case_decide.
    + by apply IH.
    + by intros [= <-].
    + destruct (vuln_run _ _ ret idx 0 p acc) as [acc1|] eqn:Hrun; [|done].
      cbn [mbind option_bind]. apply IH. by eapply vuln_run_sound.
Qed.

(** Whatever the array and the table hold, with or without [-q], a query
    that returns reports only advisories of the array that apply to the
    package, and returns true exactly when it reports at least one. *)
Theorem is_vulnerable_sound (tbl : list nat) (res : bool)
    (out : list audit_entry) :
  is_vulnerable quiet ret tbl p = Some (res, out) →
  Forall (applies_to p) out ∧
  (∀ x, x ∈ out → x ∈ e <$> ret) ∧
  (res = true ↔ out ≠ []).
Proof.
  unfold is_vulnerable. destruct (_ <? 256)%Z; [|done].
  destruct (tbl !! _) as [start|]; [|done]. cbn [mbind option_bind].
  intros Hloop.
  apply (vuln_loop_sound _ _ _ (res, out)) in Hloop; [done|].
  repeat split; simpl; try done. intros x Hx. by apply elem_of_nil in Hx.
Qed.

End query_soundness.

(* ================================================================= *)
(** ** The increments of the index *)

(** The elements [x] and [y] have the same name pattern and the same
    prefix length. *)
Definition same_pattern (x y : audit_entry_sorted) : Prop :=
  name_of (e x) = name_of (e y) ∧ noglob_len x = noglob_len y.

(** An increment is usable at index [i]: it is at least 1, so that the
    scan moves on, and the elements it spans, [ret[i]] to
    [ret[i + incr - 1]], exist and have the name pattern of [ret[i]]. *)
Definition incr_ok (ret : list audit_entry_sorted) : Prop :=
  ∀ i x, ret !! i = Some x →
    1 ≤ next_pfx_incr x ∧
    ∀ j, j < next_pfx_incr x → ∃ y, ret !! (i + j) = Some y ∧ same_pattern y x.

Lemma uchar_NUL c : uchar c = 0%Z → c = NUL.
Proof. intros H. by apply uchar_inj. Qed.

Lemma strcmp_eq s : ∀ t, NUL ∉ s → NUL ∉ t → strcmp s t = 0%Z → s = t.
Proof.
  induction s as [|c s IH]; intros [|d t] Hs Ht; simpl; try done.
  - intros H. apply not_elem_of_cons in Ht as [Hd _].
    destruct Hd. symmetry. apply uchar_NUL. lia.
  - intros H. apply not_elem_of_cons in Hs as [Hc _].
    destruct Hc. symmetry. by apply uchar_NUL.
  - apply not_elem_of_cons in Hs as [_ Hs]. apply not_elem_of_cons in Ht as [_ Ht].
    case_decide as Hcd.
    + intros H. subst. f_equal. by apply IH.
    + intros H. destruct Hcd. apply uchar_inj. lia.
Qed.

Lemma same_pattern_proj x y x' y' :
  entry_and_len x' = entry_and_len x → entry_and_len y' = entry_and_len y →
  same_pattern x y → same_pattern x' y'.
Proof.
  unfold entry_and_len, same_pattern. intros [= -> ->] [= -> ->]. done.
Qed.

Lemma lookup_proj (l k : list audit_entry_sorted) i x :
  entry_and_len <$> l = entry_and_len <$> k → l !! i = Some x →
  ∃ y, k !! i = Some y ∧ entry_and_len x = entry_and_len y.
Proof.
  intros Hlk Hx. apply (f_equal (λ l, l !! i)) in Hlk.
  rewrite !list_lookup_fmap, Hx in Hlk. simpl in Hlk.
  destruct (k !! i) as [y|] eqn:Hy; simplify_eq/=.
  exists y. split; [done|]. unfold entry_and_len. congruence.
Qed.

(** What the inner loop writes: the elements from [base + i] to
    [base + i + tofill - 2] get the distance to [base + i + tofill]. *)
Lemma fill_run_lookup tofill : ∀ base i ret q x1,
  fill_run base i tofill ret !! q = Some x1 →
  ∃ x, ret !! q = Some x ∧ entry_and_len x1 = entry_and_len x ∧
    (next_pfx_incr x1 = next_pfx_incr x ∨
     (base + i ≤ q ∧ q + 1 < base + i + tofill ∧
      next_pfx_incr x1 = base + i + tofill - q)).
Proof.
  induction tofill as [|[|t] IH]; intros base i ret q x1 Hq.
  - exists x1. by repeat split; [..|left].
  - exists x1. by repeat split; [..|left].
  - change (fill_run base i (S (S t)) ret)
      with (fill_run base (S i) (S t) (alter (set_incr (S (S t))) (base + i) ret))
      in Hq.
    apply IH in Hq as (x' & Hx' & Hproj & Hincr).
    destruct (decide (q = base + i)) as [->|Hne].
    + rewrite list_lookup_alter_eq in Hx'.
      destruct (ret !! (base + i)) as [x|] eqn:Hx; simplify_eq/=.
      exists x. split; [done|]. split; [unfold entry_and_len; congruence|].
      right. destruct Hincr as [Hincr|(? & ? & ?)]; lia.
    + rewrite list_lookup_alter_ne in Hx' by done.
      exists x'. split; [done|]. split; [done|].
      destruct Hincr as [Hincr|(? & ? & ?)]; [by left|right; lia].
Qed.

Section increments.
Variable names_ok : audit_entry_sorted → Prop.
Hypothesis names_ok_NUL : ∀ x, names_ok x → NUL ∉ name_of (e x).
Hypothesis names_ok_proj : ∀ x y,
  entry_and_len x = entry_and_len y → names_ok x → names_ok y.

(** The state of the outer loop on entry to the turn for [n]: the [tofill]
    elements before [ret[n]] have one name pattern, and every increment
    written so far is usable. *)
Definition incr_loop_inv (n tofill : nat) (ret : list audit_entry_sorted) : Prop :=
  tofill < n ∧ n ≤ length ret ∧ Forall names_ok ret ∧
  (∀ j y z, n - tofill ≤ j < n → ret !! j = Some y → ret !! (n - 1) = Some z →
     same_pattern y z) ∧
  incr_ok ret.

Lemma fill_run_inv n tofill ret :
  incr_loop_inv n tofill ret → n < length ret →
  incr_loop_inv (S n) 1 (fill_run (n - tofill) 0 tofill ret).
Proof.
  intros (Hto & Hn & Hnames & Hrun & Hok) Hlt.
  pose proof (fill_run_proj tofill (n - tofill) 0 ret) as Hproj.
  pose proof (fmap_proj_length _ _ Hproj) as Hlen.
  split; [lia|]. split; [lia|]. split; [|split].
  - rewrite Forall_lookup. intros q x1 Hq.
    destruct (lookup_proj _ _ _ _ Hproj Hq) as (x & Hx & Hxx).
    apply (names_ok_proj x x1); [done|].
    rewrite Forall_lookup in Hnames. by eapply Hnames.
  - intros j y z Hj Hy Hz. assert (j = n) as -> by lia.
    replace (S n - 1) with n in Hz by lia. by simplify_eq.
  - intros q x1 Hq.
    destruct (fill_run_lookup _ _ _ _ _ _ Hq) as (x & Hx & Hxx & Hincr).
    assert (∀ j y, ret !! (q + j) = Some y → same_pattern y x →
      ∃ y1, fill_run (n - tofill) 0 tofill ret !! (q + j) = Some y1 ∧
        same_pattern y1 x1) as Hback.
    { intros j y Hy Hyx. symmetry in Hproj.
      destruct (lookup_proj _ _ _ _ Hproj Hy) as (y1 & Hy1 & Hyy).
      exists y1. split; [done|]. by apply (same_pattern_proj y x). }
    destruct Hincr as [Hincr|(Hlo & Hhi & Hincr)].
    + rewrite Hincr. destruct (Hok q x Hx) as [H1 Hspan]. split; [done|].
      intros j Hj. destruct (Hspan j Hj) as (y & Hy & Hyx). by eapply Hback.
    + rewrite Hincr. split; [lia|]. intros j Hj.
      destruct (lookup_lt_is_Some_2 ret (q + j)) as [y Hy]; [lia|].
      destruct (lookup_lt_is_Some_2 ret (n - 1)) as [z Hz]; [lia|].
      apply (Hback j y Hy).
      assert (same_pattern y z) as [Hyz1 Hyz2] by (apply (Hrun (q + j)); [lia|done..]).
      assert (same_pattern x z) as [Hxz1 Hxz2] by (apply (Hrun q); [lia|done..]).
      split; congruence.
Qed.

Lemma incr_loop_keeps_inv fuel : ∀ n tofill ret ret',
  incr_loop_inv n tofill ret →
  incr_loop fuel n tofill ret = Some ret' → incr_ok ret'.
Proof.
  induction fuel as [|fuel IH]; intros n tofill ret ret' Hinv; simpl.
  - destruct (ret !! n); [done|]. case_decide; [|done]. intros [= <-].
    apply Hinv.
  - destruct (ret !! n) as [cur|] eqn:Hcur.
    2:{ case_decide; [|done]. intros [= <-]. apply Hinv. }
    assert (n < length ret) as Hlt by (by eapply lookup_lt_Some).
    destruct (ret !! (n - 1)) as [prev|] eqn:Hprev; [|done].
    cbn [mbind option_bind].
    destruct Hinv as (Hto & Hn & Hnames & Hrun & Hok).
    repeat case_decide.
    + apply IH. apply fill_run_inv; [|done].
      exact (conj Hto (conj Hn (conj Hnames (conj Hrun Hok)))).
    + apply IH. split; [lia|]. split; [lia|]. split; [done|]. split; [|done].
      intros j y z Hj Hy Hz. replace (S n - 1) with n in Hz by lia.
      assert (z = cur) as -> by congruence.
      assert (same_pattern prev cur) as Hpz.
      { rewrite Forall_lookup in Hnames. split; [|lia].
        apply strcmp_eq; [apply names_ok_NUL; by eapply Hnames..|done]. }
      destruct (decide (j = n)) as [->|Hjn].
      { assert (y = cur) as -> by congruence. by split. }
      assert (same_pattern y prev) as Hyp by (apply (Hrun j); [lia|done..]).
      destruct Hyp, Hpz. split; congruence.
    + apply IH. split; [lia|]. split; [lia|]. split; [done|]. split; [|done].
      intros j y z Hj Hy Hz. assert (j = n) as -> by lia.
      replace (S n - 1) with n in Hz by lia. by simplify_eq.
Qed.

End increments.

Section increments_of_index.
Context `{E : Extern}.

(** The steps of [preprocess_db], one by one. *)
Lemma preprocess_db_steps h ret tbl :
  preprocess_db h = Some (ret, tbl) →
  ∃ ret0, init_sorted h = Some ret0 ∧
    incr_loop (length (qsort audit_entry_compare ret0)) 1 0
      (qsort audit_entry_compare ret0) = Some ret ∧
    tbl = first_byte_idx ret.
Proof.
  unfold preprocess_db. destruct (init_sorted h) as [ret0|]; [|done].
  cbn [mbind option_bind].
  destruct (incr_loop _ 1 0 _) as [ret'|] eqn:Hloop; [|done].
  cbn [mbind option_bind]. intros Heq.
  assert (ret' = ret) as -> by congruence.
  assert (tbl = first_byte_idx ret) as -> by congruence.
  clear Heq. exists ret0. split; [done|]. split; [exact Hloop|done].
Qed.

Lemma preprocess_db_incr_ok (h : list audit_entry)
    (ret : list audit_entry_sorted) (tbl : list nat) :
  Forall (λ x, NUL ∉ name_of x) h →
  preprocess_db h = Some (ret, tbl) → incr_ok ret.
Proof.
  intros Hnul (ret0 & Hinit & Hloop & _)%preprocess_db_steps.
  apply init_sorted_spec in Hinit as (Hh & _ & Hone).
  set (sorted := qsort audit_entry_compare ret0) in *.
  assert (Forall (λ x, NUL ∉ name_of (e x)) ret0) as Hnul0.
  { subst h. by rewrite Forall_fmap in Hnul. }
  assert (Forall (λ x, NUL ∉ name_of (e x)) sorted) as Hnuls.
  { unfold sorted. by rewrite (qsort_perm _ ret0). }
  assert (Forall (λ x, next_pfx_incr x = 1) sorted) as Hones.
  { unfold sorted. by rewrite (qsort_perm _ ret0). }
  destruct sorted as [|x0 sorted'] eqn:Hsorted.
  { simpl in Hloop. discriminate Hloop. }
  rewrite <- Hsorted in *.
  apply (incr_loop_keeps_inv (λ x, NUL ∉ name_of (e x))) in Hloop; [done|done|..].
  - unfold entry_and_len. intros x y [= Hxy _]. by rewrite Hxy.
  - split; [lia|]. split; [rewrite Hsorted; simpl; lia|]. split; [done|]. split.
    + intros j y z Hj. lia.
    + intros i x Hx. rewrite Forall_lookup in Hones.
      rewrite (Hones i x Hx). split; [lia|]. intros j Hj.
      assert (j = 0) as -> by lia. rewrite Nat.add_0_r. exists x. by split.
Qed.

(** In the array [preprocess_db] returns for entries whose names are C
    strings, every increment is usable: following it from any element
    moves the scan on and passes only elements with the name pattern of
    that element, inside the array. *)
Theorem preprocess_db_increments (h : list audit_entry)
    (ret : list audit_entry_sorted) (tbl : list nat) :
  Forall (λ x, NUL ∉ name_of x) h →
  preprocess_db h = Some (ret, tbl) →
  ∀ i x, ret !! i = Some x →
    1 ≤ next_pfx_incr x ∧
    ∀ j, j < next_pfx_incr x →
      ∃ y, ret !! (i + j) = Some y ∧
           name_of (e y) = name_of (e x) ∧ noglob_len y = noglob_len x.
Proof. apply preprocess_db_incr_ok. Qed.

End increments_of_index.

Definition incr_sample : list audit_entry :=
  [mk_audit_entry (Some (bytes "zz")) zero_version zero_version None None;
   mk_audit_entry (Some (bytes "foo")) zero_version zero_version None None;
   mk_audit_entry (Some (bytes "a")) zero_version zero_version None None;
   mk_audit_entry (Some (bytes "foo")) zero_version zero_version None None].

Definition incr_sample_ret : list audit_entry_sorted :=
  [mk_sorted (mk_audit_entry (Some (bytes "a")) zero_version zero_version None None) 1 1;
   mk_sorted (mk_audit_entry (Some (bytes "foo")) zero_version zero_version None None) 3 2;
   mk_sorted (mk_audit_entry (Some (bytes "foo")) zero_version zero_version None None) 3 1;
   mk_sorted (mk_audit_entry (Some (bytes "zz")) zero_version zero_version None None) 2 1].

Lemma incr_sample_names : Forall (λ x, NUL ∉ name_of x) incr_sample.
Proof. repeat constructor; compute_done. Qed.

Lemma incr_sample_index :
  @preprocess_db ref_extern incr_sample
  = Some (incr_sample_ret, first_byte_idx incr_sample_ret).
Proof. vm_compute. reflexivity. Qed.

(** The increments of a small index, a run of two in the middle. *)
Lemma preprocess_db_increments_witness :
  Forall (λ x, NUL ∉ name_of x) incr_sample ∧
  @preprocess_db ref_extern incr_sample
    = Some (incr_sample_ret, first_byte_idx incr_sample_ret) ∧
  next_pfx_incr <$> incr_sample_ret = [1; 2; 1; 1] ∧
  incr_ok incr_sample_ret.
Proof.
  split; [exact incr_sample_names|]. split; [exact incr_sample_index|].
  split; [reflexivity|].
  exact (@preprocess_db_increments ref_extern _ _ _
           incr_sample_names incr_sample_index).
Defined.

(* ================================================================= *)
(** ** The query reports every matching advisory it can reach *)

(** [applies_to], computed. *)
Definition applies_b `{Extern} (p : pkg) (x : audit_entry) : bool :=
  match pkgname x with
  | Some name =>
      bool_decide (fnmatch name (PKG_NAME p) = 0%Z) &&
      match_version (PKG_VERSION p) (v1 x) &&
      match_version (PKG_VERSION p) (v2 x)
  | None => false
  end.

(** The flag and the report after the entries [xs] have been examined in
    turn. *)
Definition add_matches `{Extern} (p : pkg) (xs : list audit_entry)
    (acc : bool * list audit_entry) : bool * list audit_entry :=
  foldl (λ acc x, if applies_b p x then (true, acc.2 ++ [x]) else acc) acc xs.

Lemma strncmp_prefix_0 L : ∀ name q,
  take L name `prefix_of` q → L ≤ length name → strncmp q name L = 0%Z.
Proof.
  induction L as [|L IH]; intros name q Hpre Hlen; [done|].
  destruct name as [|c name]; [simpl in Hlen; lia|].
  simpl in Hpre. destruct Hpre as [k ->]. simpl.
  rewrite decide_True by done. apply IH; [|simpl in Hlen; lia].
  by exists k.
Qed.

Lemma strncmp_neg_key pa : ∀ q,
  (strncmp q pa (length pa) < 0)%Z → key_lt (take (length pa) q) pa.
Proof.
  induction pa as [|c pa IH]; intros q; simpl; [lia|].
  destruct q as [|d q]; [intros _; constructor|].
  simpl. case_decide as Hdc.
  - subst. intros H. apply key_lt_tail. by apply IH.
  - intros H. apply key_lt_byte. lia.
Qed.

Lemma key_lt_prefix_below pa : ∀ q pj,
  key_lt (take (length pa) q) pa → pj `prefix_of` q → key_lt pj pa.
Proof.
  induction pa as [|c pa IH]; intros q pj Hlt Hpre; [inversion Hlt|].
  destruct pj as [|d pj]; [constructor|].
  destruct Hpre as [k ->]. simpl in Hlt.
  inversion Hlt; subst.
  - by constructor.
  - apply key_lt_tail. apply (IH (pj ++ k)); [done|]. by exists k.
Qed.

(** What is printed for an entry that applies can be printed: the
    program runs with [-q], or the entry has a description and a URL. *)
Definition printable (quiet : bool) (x : audit_entry) : Prop :=
  quiet = true ∨ (desc x ≠ None ∧ url x ≠ None).

Section query_completeness.
Context `{E : Extern}.
Variable quiet : bool.
Variable ret : list audit_entry_sorted.
Variable p : pkg.
Hypothesis ret_wf : Forall well_formed ret.
Hypothesis ret_sorted : StronglySorted key_le (literal_prefix <$> ret).
Hypothesis ret_incr : incr_ok ret.
Hypothesis ret_print : Forall (λ x, printable quiet (e x)) ret.

Lemma applies_b_spec x : applies_b p x = true ↔ applies_to p x.
Proof.
  unfold applies_b, applies_to. destruct (pkgname x) as [name|].
  - rewrite !andb_true_iff, bool_decide_eq_true. split.
    + intros [[? ?] ?]. by exists name.
    + intros (? & [= <-] & ? & ? & ?). done.
  - split; [done|]. by intros (? & ? & _).
Qed.

Lemma report_add x acc :
  pkgname x ≠ None → printable quiet x →
  report quiet p x acc = Some (add_matches p [x] acc).
Proof.
  destruct (pkgname x) as [name|] eqn:Hname; [intros _ Hprint|done].
  rewrite (report_named quiet p x acc name Hname Hprint).
  unfold add_matches, applies_b. simpl. by rewrite Hname.
Qed.

Lemma add_matches_app xs ys acc :
  add_matches p (xs ++ ys) acc = add_matches p ys (add_matches p xs acc).
Proof. unfold add_matches. by rewrite foldl_app. Qed.

Lemma add_matches_none xs acc :
  Forall (λ x, applies_b p x = false) xs → add_matches p xs acc = acc.
Proof.
  induction 1 as [|x xs Hx _ IH]; [done|].
  unfold add_matches in *. simpl. by rewrite Hx.
Qed.

Lemma add_matches_filter xs : ∀ acc,
  add_matches p xs acc =
  (acc.1 || bool_decide (filter (λ x, applies_b p x) xs ≠ []),
   acc.2 ++ filter (λ x, applies_b p x) xs).
Proof.
  induction xs as [|x xs IH]; intros [res out].
  - simpl. by rewrite orb_false_r, app_nil_r.
  - unfold add_matches in *. simpl. destruct (applies_b p x) eqn:Hx.
    + rewrite IH. rewrite filter_cons_True by (by rewrite Hx). simpl.
      rewrite <- app_assoc. f_equal. by rewrite orb_true_r.
    + rewrite IH. rewrite filter_cons_False by (rewrite Hx; simpl; tauto). done.
Qed.

Lemma well_formed_named x : well_formed x → pkgname (e x) ≠ None.
Proof. intros (s & Hs & _). by rewrite Hs. Qed.

Lemma drop_lookup_cons (l : list audit_entry_sorted) n x :
  l !! n = Some x → drop n l = x :: drop (S n) l.
Proof.
  revert n. induction l as [|y l IH]; intros [|n] Hx; simplify_eq/=; [done|].
  by apply IH.
Qed.

(** The inner loop examines the elements it is given, in turn. *)
Lemma vuln_run_spec count : ∀ idx i acc,
  idx + i + count ≤ length ret →
  vuln_run quiet count ret idx i p acc =
  Some (add_matches p (e <$> take count (drop (idx + i) ret)) acc).
Proof.
  induction count as [|count IH]; intros idx i acc Hlen; [done|].
  destruct (lookup_lt_is_Some_2 ret (idx + i)) as [x Hx]; [lia|].
  simpl. rewrite Hx. cbn [mbind option_bind].
  rewrite report_add.
  2:{ apply well_formed_named. pose proof ret_wf as Hwf.
      rewrite Forall_lookup in Hwf. by eapply Hwf. }
  2:{ pose proof ret_print as Hpr.
      rewrite Forall_lookup in Hpr. by eapply Hpr. }
  cbn [mbind option_bind]. rewrite IH by lia.
  rewrite (drop_lookup_cons ret (idx + i) x Hx). simpl.
  replace (idx + S i) with (S (idx + i)) by lia. reflexivity.
Qed.

(** An element whose literal prefix the package name does not carry. *)
Lemma no_match_prefix x :
  well_formed x →
  strncmp (PKG_NAME p) (name_of (e x)) (noglob_len x) ≠ 0%Z →
  applies_b p (e x) = false.
Proof.
  intros (s & Hs & Hlen) Hcmp. unfold applies_b. rewrite Hs.
  unfold name_of in Hcmp. rewrite Hs in Hcmp. simpl in Hcmp.
  rewrite bool_decide_eq_false_2; [done|]. intros Hf.
  apply Hcmp, strncmp_prefix_0.
  - rewrite Hlen. by apply fnmatch_noglob_prefix.
  - rewrite Hlen. apply str_noglob_len_le.
Qed.

(** An element that applies carries its literal prefix at the start of
    the package name. *)
Lemma applies_prefix x :
  well_formed x → applies_b p (e x) = true →
  literal_prefix x `prefix_of` PKG_NAME p.
Proof.
  intros (s & Hs & Hlen) Happ. unfold applies_b in Happ. rewrite Hs in Happ.
  rewrite !andb_true_iff, bool_decide_eq_true in Happ.
  destruct Happ as [[Hf _] _]. unfold literal_prefix, name_of.
  rewrite Hs, Hlen. simpl. by apply fnmatch_noglob_prefix.
Qed.

(** Once the package name is below the literal prefix of an element,
    neither that element nor a later one applies. *)
Lemma no_match_after idx a j y :
  ret !! idx = Some a → idx ≤ j → ret !! j = Some y →
  (strncmp (PKG_NAME p) (name_of (e a)) (noglob_len a) < 0)%Z →
  applies_b p (e y) = false.
Proof.
  intros Ha Hj Hy Hcmp.
  pose proof ret_wf as Hwf. rewrite Forall_lookup in Hwf.
  pose proof (Hwf idx a Ha) as Hwa. pose proof (Hwf j y Hy) as Hwy.
  destruct (applies_b p (e y)) eqn:Happ; [|done]. exfalso.
  apply (applies_prefix y Hwy) in Happ.
  assert (length (literal_prefix a) = noglob_len a) as Hlen.
  { unfold literal_prefix. apply length_take_le. by apply well_formed_len. }
  assert (key_lt (literal_prefix y) (literal_prefix a)) as Hlt.
  { apply (key_lt_prefix_below _ (PKG_NAME p)); [|done].
    apply strncmp_neg_key. rewrite Hlen. unfold literal_prefix.
    by rewrite strncmp_take_r. }
  assert (key_le (literal_prefix a) (literal_prefix y)) as Hle.
  { destruct (decide (idx = j)) as [->|Hne].
    - left. congruence.
    - apply (StronglySorted_lookup key_le (literal_prefix <$> ret) idx j);
        [done|lia|..]; rewrite list_lookup_fmap; [by rewrite Ha|by rewrite Hy]. }
  destruct Hle as [Heq|Hlt'].
  - rewrite Heq in Hlt. by apply key_lt_irrefl in Hlt.
  - by apply key_lt_asym in Hlt.
Qed.

(** The elements an increment spans. *)
Lemma incr_span idx a :
  ret !! idx = Some a →
  1 ≤ next_pfx_incr a ∧ idx + next_pfx_incr a ≤ length ret ∧
  Forall (λ y, same_pattern y a) (take (next_pfx_incr a) (drop idx ret)).
Proof.
  intros Ha. destruct (ret_incr idx a Ha) as [H1 Hspan].
  split; [done|]. split.
  - destruct (Hspan (next_pfx_incr a - 1)) as (y & Hy & _); [lia|].
    apply lookup_lt_Some in Hy. lia.
  - rewrite Forall_lookup. intros j y Hy.
    apply lookup_take_Some in Hy as [Hy Hj]. rewrite lookup_drop in Hy.
    destruct (Hspan j Hj) as (y' & Hy' & Hsame). congruence.
Qed.

(** The scan from [idx] on: every element from there on is accounted
    for, examined or passed over because it cannot apply. *)
Lemma vuln_loop_spec fuel : ∀ idx acc,
  idx ≤ length ret → length ret - idx ≤ fuel →
  vuln_loop quiet fuel ret idx p acc =
  Some (add_matches p (e <$> drop idx ret) acc).
Proof.
  induction fuel as [|fuel IH]; intros idx acc Hidx Hfuel.
  - assert (idx = length ret) as -> by lia. simpl.
    rewrite lookup_ge_None_2 by lia. rewrite decide_True by done.
    by rewrite drop_all.
  - simpl. destruct (ret !! idx) as [a|] eqn:Ha.
    2:{ apply lookup_ge_None in Ha. rewrite decide_True by lia.
        by rewrite drop_ge by lia. }
    assert (idx < length ret) as Hlt by (by eapply lookup_lt_Some).
    pose proof ret_wf as Hwf. rewrite Forall_lookup in Hwf.
    destruct (Hwf idx a Ha) as (name & Hname & Hlen).
    rewrite Hname. cbn [mbind option_bind].
    destruct (incr_span idx a Ha) as (H1 & Hend & Hsame).
    set (k := next_pfx_incr a) in *.
    assert (name_of (e a) = name) as Hnm by (unfold name_of; by rewrite Hname).
    assert (drop idx ret = take k (drop idx ret) ++ drop (idx + k) ret) as Hsplit.
    { by rewrite <- (take_drop k (drop idx ret)) at 1; rewrite drop_drop. }
    case_decide as Hpos; [|case_decide as Hneg].
    + rewrite IH by lia. rewrite Hsplit.
      rewrite fmap_app, add_matches_app. f_equal. f_equal. symmetry.
      apply add_matches_none. rewrite Forall_fmap.
      rewrite Forall_lookup in Hsame |- *. intros j y Hy. simpl.
      destruct (Hsame j y Hy) as [Hn Hl].
      apply no_match_prefix.
      * apply lookup_take_Some in Hy as [Hy _]. rewrite lookup_drop in Hy.
        by eapply Hwf.
      * rewrite Hn, Hl, Hnm. lia.
    + f_equal. symmetry. apply add_matches_none. rewrite Forall_fmap.
      rewrite Forall_lookup. intros j y Hy. simpl. rewrite lookup_drop in Hy.
      apply (no_match_after idx a (idx + j) y); [done|lia|done|].
      rewrite Hnm. lia.
    + rewrite vuln_run_spec by lia. cbn [mbind option_bind].
      rewrite IH by lia. rewrite Nat.add_0_r. rewrite Hsplit at 2.
      by rewrite fmap_app, add_matches_app.
Qed.

End query_completeness.

Section query_from_table.
Context `{E : Extern}.
Variable quiet : bool.
Variable ret : list audit_entry_sorted.
Variable p : pkg.
Hypothesis ret_wf : Forall well_formed ret.
Hypothesis ret_sorted : StronglySorted key_le (literal_prefix <$> ret).
Hypothesis ret_incr : incr_ok ret.
Hypothesis ret_print : Forall (λ x, printable quiet (e x)) ret.
Hypothesis ret_literal : Forall (λ x, noglob_len x ≠ 0) ret.
Hypothesis name_ascii : (uchar (first_char (PKG_NAME p)) < 128)%Z.

(** The elements the table passes over start with a byte below that of
    the package name, which their literal prefix then cannot match. *)
Lemma no_match_before i x :
  i < first_at_least (size_t_of_char (first_char (PKG_NAME p))) ret →
  ret !! i = Some x → applies_b p (e x) = false.
Proof.
  intros Hi Hx.
  destruct (first_at_least_spec (size_t_of_char (first_char (PKG_NAME p))) ret)
    as (_ & Hbelow & _).
  specialize (Hbelow i x Hi Hx).
  pose proof ret_wf as Hwf. rewrite Forall_lookup in Hwf.
  pose proof (Hwf i x Hx) as Hwx.
  pose proof ret_literal as Hlit. rewrite Forall_lookup in Hlit.
  pose proof (Hlit i x Hx) as Hnz.
  destruct (applies_b p (e x)) eqn:Happ; [|done]. exfalso.
  apply (applies_prefix p x Hwx) in Happ.
  destruct Hwx as (s & Hs & Hlen).
  unfold first_byte, literal_prefix, name_of in *. rewrite Hs in *. simpl in *.
  destruct (noglob_len x) as [|n]; [done|].
  destruct s as [|b s]; [simpl in Hlen; lia|].
  simpl in Happ. destruct Happ as [k Hk]. rewrite Hk in Hbelow.
  simpl in Hbelow. lia.
Qed.

(** The query on a well-formed index, for a package whose name starts
    with an ASCII byte: every element of the array is accounted for. *)
Lemma is_vulnerable_spec :
  is_vulnerable quiet ret (first_byte_idx ret) p =
  Some (add_matches p (e <$> ret) (false, [])).
Proof.
  unfold is_vulnerable.
  set (c := size_t_of_char (first_char (PKG_NAME p))).
  assert (0 ≤ c < 128)%Z as Hc.
  { unfold c, size_t_of_char. destruct (_ <? 128)%Z eqn:H.
    - unfold uchar in *. lia.
    - apply Z.ltb_ge in H. lia. }
  assert ((c <? 256)%Z = true) as -> by (apply Z.ltb_lt; lia).
  rewrite first_byte_idx_spec by lia. rewrite Z2Nat.id by lia.
  cbn [mbind option_bind].
  destruct (first_at_least_spec c ret) as (Hle & _ & _).
  rewrite (vuln_loop_spec quiet ret p ret_wf ret_sorted ret_incr ret_print)
    by lia.
  f_equal.
  transitivity (add_matches p (e <$> take (first_at_least c ret) ret ++
                                     drop (first_at_least c ret) ret) (false, []));
    [|by rewrite take_drop].
  rewrite fmap_app, add_matches_app. f_equal.
  symmetry. apply add_matches_none. rewrite Forall_fmap, Forall_lookup.
  intros i x Hx. simpl. apply lookup_take_Some in Hx as [Hx Hi].
  by apply (no_match_before i).
Qed.

End query_from_table.

Section query_of_index.
Context `{E : Extern}.

(** The query on the index built from a list of advisories. *)
Lemma is_vulnerable_of_index (quiet : bool) (h : list audit_entry)
    (ret : list audit_entry_sorted) (tbl : list nat) (p : pkg) :
  preprocess_db h = Some (ret, tbl) →
  Forall (λ x, (NUL ∉ name_of x) ∧ str_noglob_len (name_of x) ≠ 0) h →
  Forall (printable quiet) h →
  (uchar (first_char (PKG_NAME p)) < 128)%Z →
  let out := filter (λ x, applies_b p x) (e <$> ret) in
  is_vulnerable quiet ret tbl p = Some (bool_decide (out ≠ []), out) ∧
  (out ≡ₚ filter (λ x, applies_b p x) h).
Proof.
  intros Hpre Hh Hprint Hascii out.
  destruct (preprocess_db_index h ret tbl Hpre)
    as (Hperm & Hwf & Hsorted & _).
  assert (incr_ok ret) as Hincr.
  { apply (preprocess_db_incr_ok h ret tbl); [|done].
    eapply Forall_impl; [exact Hh|]. by intros x [? _]. }
  assert (∀ x, x ∈ ret → e x ∈ h) as Hin.
  { intros x Hx. rewrite <- Hperm. apply list_elem_of_fmap. by exists x. }
  assert (Forall (λ x, noglob_len x ≠ 0) ret) as Hlit.
  { rewrite Forall_forall. intros x Hx.
    rewrite Forall_forall in Hh. rewrite Forall_forall in Hwf.
    destruct (Hh _ (Hin x Hx)) as [_ Hnz].
    destruct (Hwf x Hx) as (s & Hs & Hlen).
    unfold name_of in Hnz. rewrite Hs in Hnz. simpl in Hnz. by rewrite Hlen. }
  assert (Forall (λ x, printable quiet (e x)) ret) as Hpr.
  { rewrite Forall_forall. intros x Hx.
    rewrite Forall_forall in Hprint. by apply Hprint, Hin. }
  apply preprocess_db_spec in Hpre as (_ & _ & _ & _ & ->).
  split; [|unfold out; by rewrite Hperm].
  rewrite (is_vulnerable_spec quiet ret p Hwf Hsorted Hincr Hpr Hlit Hascii).
  by rewrite add_matches_filter.
Qed.

(** On an index built from advisories whose names are C strings that
    start with a literal byte, for a package whose name starts with an
    ASCII byte, and where what is to be printed can be printed (the program
    runs with [-q], or every advisory has a description and a URL), the
    query reports exactly the advisories that apply to the package, each
    once for each time it is listed, and returns true exactly when there
    is one. *)
Theorem is_vulnerable_complete (quiet : bool) (h : list audit_entry)
    (ret : list audit_entry_sorted) (tbl : list nat) (p : pkg) :
  preprocess_db h = Some (ret, tbl) →
  Forall (λ x, (NUL ∉ name_of x) ∧ str_noglob_len (name_of x) ≠ 0) h →
  Forall (λ x, quiet = true ∨ (desc x ≠ None ∧ url x ≠ None)) h →
  (uchar (first_char (PKG_NAME p)) < 128)%Z →
  let out := filter (λ x, applies_b p x) (e <$> ret) in
  is_vulnerable quiet ret tbl p = Some (bool_decide (out ≠ []), out) ∧
  (out ≡ₚ filter (λ x, applies_b p x) h) ∧
  (∀ x, x ∈ out ↔ x ∈ h ∧ applies_to p x).
Proof.
  intros Hpre Hh Hprint Hascii out.
  destruct (is_vulnerable_of_index quiet h ret tbl p Hpre Hh Hprint Hascii)
    as [Hq Hout].
  fold out in Hq, Hout.
  split; [exact Hq|]. split; [exact Hout|].
  intros x. rewrite Hout, list_elem_of_filter, <- applies_b_spec.
  unfold Is_true. destruct (applies_b p x); split; intros [? ?]; done.
Qed.

End query_of_index.

(** An advisory as a line of three columns gives it, with a URL and a
    description. *)
Definition sample_advisory (name : string) (b1 b2 : version_entry)
  : audit_entry :=
  mk_audit_entry (Some (bytes name)) b1 b2 (Some (bytes "http://example/adv"))
    (Some (bytes "text" ++ [NL])).

(** A small index with version bounds, and a package to look up. *)
Definition query_sample : list audit_entry :=
  [sample_advisory "zsh" zero_version zero_version;
   sample_advisory "foo" (mk_version_entry (Some (bytes "2.0")) LT) zero_version;
   sample_advisory "fo*" zero_version zero_version;
   sample_advisory "foo" (mk_version_entry (Some (bytes "3.0")) GTE) zero_version;
   sample_advisory "bar" zero_version zero_version].

Definition query_sample_pkg : pkg := mk_pkg (bytes "foo") (bytes "1.0").

Definition query_sample_ret : list audit_entry_sorted :=
  [mk_sorted (sample_advisory "bar" zero_version zero_version) 3 1;
   mk_sorted (sample_advisory "fo*" zero_version zero_version) 2 1;
   mk_sorted (sample_advisory "foo"
                (mk_version_entry (Some (bytes "2.0")) LT) zero_version) 3 1;
   mk_sorted (sample_advisory "foo"
                (mk_version_entry (Some (bytes "3.0")) GTE) zero_version) 3 1;
   mk_sorted (sample_advisory "zsh" zero_version zero_version) 3 1].

Definition query_sample_out : list audit_entry :=
  [sample_advisory "fo*" zero_version zero_version;
   sample_advisory "foo" (mk_version_entry (Some (bytes "2.0")) LT) zero_version].

Lemma query_sample_index :
  @preprocess_db ref_extern query_sample
  = Some (query_sample_ret, first_byte_idx query_sample_ret).
Proof. vm_compute. reflexivity. Qed.

Lemma query_sample_names :
  Forall (λ x, (NUL ∉ name_of x) ∧ str_noglob_len (name_of x) ≠ 0)
    query_sample.
Proof. repeat constructor; compute_done. Qed.

Lemma query_sample_printable quiet :
  Forall (λ x, quiet = true ∨ (desc x ≠ None ∧ url x ≠ None)) query_sample.
Proof. repeat (constructor; [right; done|]). constructor. Qed.

Lemma query_sample_result :
  @is_vulnerable ref_extern false query_sample_ret
    (first_byte_idx query_sample_ret) query_sample_pkg
  = Some (true, query_sample_out).
Proof. vm_compute. reflexivity. Qed.

(** foo-1.0 against the sample, without [-q]: two advisories are
    reported, both apply. *)
Lemma is_vulnerable_sound_witness :
  @is_vulnerable ref_extern false query_sample_ret
    (first_byte_idx query_sample_ret) query_sample_pkg
  = Some (true, query_sample_out) ∧
  Forall (@applies_to ref_extern query_sample_pkg) query_sample_out ∧
  (∀ x, x ∈ query_sample_out → x ∈ e <$> query_sample_ret) ∧
  (true = true ↔ query_sample_out ≠ []).
Proof.
  split; [exact query_sample_result|].
  exact (@is_vulnerable_sound ref_extern _ _ _ _ _ _ query_sample_result).
Defined.

(** foo-1.0 against the sample, without [-q]: of the five advisories the
    two that apply are reported, the pattern "fo*" and the bound
    "foo<2.0". *)
Lemma is_vulnerable_complete_witness :
  @preprocess_db ref_extern query_sample
    = Some (query_sample_ret, first_byte_idx query_sample_ret) ∧
  (uchar (first_char (PKG_NAME query_sample_pkg)) < 128)%Z ∧
  filter (λ x, @applies_b ref_extern query_sample_pkg x)
    (e <$> query_sample_ret) = query_sample_out ∧
  @is_vulnerable ref_extern false query_sample_ret
    (first_byte_idx query_sample_ret) query_sample_pkg
  = Some (bool_decide
            (filter (λ x, @applies_b ref_extern query_sample_pkg x)
               (e <$> query_sample_ret) ≠ []),
          filter (λ x, @applies_b ref_extern query_sample_pkg x)
            (e <$> query_sample_ret)).
Proof.
  split; [exact query_sample_index|]. split; [reflexivity|].
  split; [vm_compute; reflexivity|].
  exact (proj1 (@is_vulnerable_complete ref_extern false _ _ _ query_sample_pkg
                  query_sample_index query_sample_names
                  (query_sample_printable false) eq_refl)).
Defined.

(* ================================================================= *)
(** ** The first-byte table, entry by entry *)

Lemma length_first_byte_loop ret count : ∀ n i tbl,
  length (first_byte_loop count n i ret tbl) = length tbl.
Proof.
  induction count as [|count IH]; intros n i tbl; simpl; [done|].
  by rewrite IH, length_insert.
Qed.

(** The table [preprocess_db] fills has an entry for each of the 256 byte
    values.  The entry for [c] is an index into the array, or its length:
    every element before it has a name that starts with a byte below [c],
    the element at it, if there is one, has not; entry 0 is 0 and the
    entries never decrease. *)
Theorem first_byte_idx_entries (ret : list audit_entry_sorted) :
  length (first_byte_idx ret) = 256 ∧
  first_byte_idx ret !! 0 = Some 0 ∧
  (∀ c, c < 256 →
     ∃ i, first_byte_idx ret !! c = Some i ∧ i ≤ length ret ∧
       (∀ j x, j < i → ret !! j = Some x →
          (size_t_of_char (first_char (name_of (e x))) < Z.of_nat c)%Z) ∧
       (∀ x, ret !! i = Some x →
          (Z.of_nat c ≤ size_t_of_char (first_char (name_of (e x))))%Z)) ∧
  (∀ b c i j, b ≤ c → c < 256 →
     first_byte_idx ret !! b = Some i → first_byte_idx ret !! c = Some j →
     i ≤ j).
Proof.
  split; [|split; [|split] ].
  - unfold first_byte_idx. by rewrite length_first_byte_loop, length_replicate.
  - rewrite first_byte_idx_spec by lia. f_equal. apply first_at_least_0.
  - intros c Hc. exists (first_at_least (Z.of_nat c) ret).
    split; [by apply first_byte_idx_spec|].
    apply first_at_least_spec.
  - intros b c i j Hbc Hc. apply first_byte_idx_mono; lia.
Qed.

(* ================================================================= *)
(** ** The glob-free prefix and the comparator *)

(** [str_noglob_len] returns the length of the largest prefix without
    globbing characters: the bytes before it are none of the five globbing
    bytes, the byte at it, if the string goes on, is one, and it is the
    length of the string exactly when the string has no globbing byte. *)
Theorem str_noglob_len_largest (s : cstring) :
  str_noglob_len s ≤ length s ∧
  Forall (λ c, is_glob_char c = false) (take (str_noglob_len s) s) ∧
  (∀ c, s !! str_noglob_len s = Some c → is_glob_char c = true) ∧
  (∀ k, k ≤ length s → Forall (λ c, is_glob_char c = false) (take k s) →
     k ≤ str_noglob_len s) ∧
  (str_noglob_len s = length s ↔ Forall (λ c, is_glob_char c = false) s).
Proof.
  induction s as [|c s (IH1 & IH2 & IH3 & IH4 & IH5)]; simpl.
  { split; [lia|]. split; [constructor|]. split; [done|].
    split; [intros k Hk _; lia|]. split; [constructor|done]. }
  destruct (is_glob_char c) eqn:Hc; simpl.
  - split; [lia|]. split; [constructor|].
    split; [intros d Hd; congruence|].
    split; [|split].
    + intros [|k] Hk Hall; [lia|]. simpl in Hall.
      apply Forall_cons in Hall as [Hall _]. congruence.
    + lia.
    + intros Hall. apply Forall_cons in Hall as [Hall _]. congruence.
  - split; [lia|]. split; [by constructor|]. split; [exact IH3|].
    split; [|split].
    + intros [|k] Hk Hall; [lia|]. simpl in Hall.
      apply Forall_cons in Hall as [_ Hall].
      assert (k ≤ str_noglob_len s) by (apply IH4; [lia|done]). lia.
    + intros Hlen. constructor; [done|]. apply IH5. lia.
    + intros Hall. apply Forall_cons in Hall as [_ Hall].
      f_equal. by apply IH5.
Qed.

(** [audit_entry_compare] orders the literal prefixes lexicographically,
    bytes read as [unsigned char], a prefix before its extensions: on
    elements as [preprocess_db] makes them the result is negative, zero or
    positive as the prefix of the first is before, the same as, or after
    that of the second, and swapping the arguments flips the sign. *)
Theorem audit_entry_compare_order (a b : audit_entry_sorted) :
  well_formed a → well_formed b →
  ((audit_entry_compare a b < 0)%Z ↔
     key_lt (literal_prefix a) (literal_prefix b)) ∧
  (audit_entry_compare a b = 0%Z ↔ literal_prefix a = literal_prefix b) ∧
  ((0 < audit_entry_compare a b)%Z ↔
     key_lt (literal_prefix b) (literal_prefix a)) ∧
  Z.sgn (audit_entry_compare b a) = (- Z.sgn (audit_entry_compare a b))%Z.
Proof.
  intros Ha Hb.
  rewrite (audit_entry_compare_key a b Ha Hb), (audit_entry_compare_key b a Hb Ha).
  set (p := literal_prefix a). set (q := literal_prefix b).
  pose proof (key_lt_irrefl p) as Hirr.
  pose proof (key_lt_asym p q) as Hasym.
  pose proof (key_lt_asym q p) as Hasym'.
  split; [|split; [|split] ].
  - destruct (key_cmp_cases p q) as [[? ?]|[[? ->]|[? ?] ] ];
      split; intros; try done; try lia; exfalso; naive_solver.
  - apply key_cmp_eq.
  - destruct (key_cmp_cases p q) as [[? ?]|[[? ->]|[? ?] ] ];
      split; intros; try done; try lia; exfalso; naive_solver.
  - by rewrite (key_cmp_antisym q p).
Qed.

Definition compare_sample_a : audit_entry_sorted :=
  mk_sorted (mk_audit_entry (Some (bytes "fo*")) zero_version zero_version
               None None) 2 1.

Definition compare_sample_b : audit_entry_sorted :=
  mk_sorted (mk_audit_entry (Some (bytes "foo")) zero_version zero_version
               None None) 3 1.

(** The pattern "fo*", whose literal prefix is "fo", against the name
    "foo": the comparator returns -1, the prefix goes first. *)
Lemma audit_entry_compare_order_witness :
  well_formed compare_sample_a ∧ well_formed compare_sample_b ∧
  audit_entry_compare compare_sample_a compare_sample_b = (-1)%Z ∧
  key_lt (literal_prefix compare_sample_a) (literal_prefix compare_sample_b).
Proof.
  assert (well_formed compare_sample_a) as Ha by (eexists; split; reflexivity).
  assert (well_formed compare_sample_b) as Hb by (eexists; split; reflexivity).
  split; [exact Ha|]. split; [exact Hb|]. split; [reflexivity|].
  apply (proj1 (audit_entry_compare_order _ _ Ha Hb)). reflexivity.
Defined.

(* ================================================================= *)
(** ** An audit file without advisories *)

Section no_advisories.
Context `{E : Extern}.

(** For an audit file that holds no advisory line (it is empty, or each of
    its lines is a comment) [parse_db] succeeds with an empty list; the
    array [preprocess_db] allocates for it has the terminator as its only
    element, and the loop over the increments starts by reading the
    element after it: the index, and with it the audit of a package, with
    or without [-q], has no defined result. *)
Theorem no_advisories_no_index (contents : list ascii) (p : pkg) :
  Forall (λ l, first_char l = "#"%char) (getlines contents) →
  parse_db (fopen_FILE contents) 0 [] = Some (0%Z, EPKG_OK, []) ∧
  build_index (fopen_FILE contents) = None ∧
  ∀ quiet, audit_one quiet (fopen_FILE contents) p = None.
Proof.
  intros Hall.
  assert (filter is_entry_line (getlines contents) = []) as Hnone.
  { induction (getlines contents) as [|l ls IH]; [done|].
    apply Forall_cons in Hall as [Hl Hls].
    rewrite filter_cons_False by (intros Hne; by apply Hne). by apply IH. }
  assert (parse_db (fopen_FILE contents) 0 [] = Some (0%Z, EPKG_OK, [])) as Hdb.
  { by rewrite parse_db_spec, Hnone. }
  assert (preprocess_db [] = None) as Hpre.
  { unfold preprocess_db. change (init_sorted []) with (Some (@nil audit_entry_sorted)).
    cbn [mbind option_bind].
    pose proof (qsort_perm audit_entry_compare []) as Hq.
    apply Permutation_nil_r in Hq. rewrite Hq. reflexivity. }
  split; [exact Hdb|].
  unfold build_index, audit_one. rewrite Hdb. cbn [mbind option_bind].
  rewrite Hpre. done.
Qed.

End no_advisories.

(** A file of two comment lines. *)
Lemma no_advisories_no_index_witness :
  @build_index ref_extern
    (fopen_FILE (bytes "# vuxml" ++ [NL] ++ bytes "#" ++ [NL])) = None ∧
  ∀ quiet, @audit_one ref_extern quiet
    (fopen_FILE (bytes "# vuxml" ++ [NL] ++ bytes "#" ++ [NL]))
    (openssl "1.0.1") = None.
Proof.
  apply (@no_advisories_no_index ref_extern
           (bytes "# vuxml" ++ [NL] ++ bytes "#" ++ [NL]) (openssl "1.0.1")).
  repeat constructor.
Defined.

(* ================================================================= *)
(** ** The parser: the fields of a well-formed line *)

(** A byte that starts no comparator. *)
Definition plain (c : ascii) : Prop :=
  c ≠ "="%char ∧ c ≠ "<"%char ∧ c ≠ ">"%char.

(** The comparators [parse_pattern] knows, with their codes. *)
Inductive comparator : Z → cstring → Prop :=
  | comparator_EQ : comparator EQ (bytes "=")
  | comparator_LT : comparator LT (bytes "<")
  | comparator_LTE : comparator LTE (bytes "<=")
  | comparator_GT : comparator GT (bytes ">")
  | comparator_GTE : comparator GTE (bytes ">=").

Lemma comparator_code ty op : comparator ty op → ty ≠ 0%Z ∧ 1 ≤ length op.
Proof. destruct 1; simpl; split; (done || lia). Qed.

Lemma peek_app pre l k : peek (pre ++ l) (length pre + k) = peek l k.
Proof.
  unfold peek. rewrite lookup_app_r by lia.
  replace (length pre + k - length pre) with k by lia.
  destruct (l !! k); [done|]. rewrite length_app.
  repeat case_decide; try done; lia.
Qed.

Lemma pp_token_app pre l : pp_token (pre ++ l) (length pre) = pp_token l 0.
Proof.
  pose proof (peek_app pre l 0) as H0. rewrite Nat.add_0_r in H0.
  pose proof (peek_app pre l 1) as H1.
  unfold pp_token. rewrite H0.
  destruct (peek l 0) as [c|]; [|done]. cbn [mbind option_bind].
  rewrite H1. reflexivity.
Qed.

Lemma pp_token_plain buf i c :
  buf !! i = Some c → plain c → pp_token buf i = Some (0%Z, 0).
Proof.
  intros Hc (H1 & H2 & H3). unfold pp_token, peek. rewrite Hc.
  cbn [mbind option_bind].
  rewrite (decide_False (P := c = "="%char)) by done.
  rewrite (decide_False (P := c = "<"%char)) by done.
  cbn [mbind option_bind].
  by rewrite (decide_False (P := c = ">"%char)) by done.
Qed.

(** The token at a comparator that no "=" follows other than its own. *)
Lemma pp_token_comparator ty op post :
  comparator ty op → (∀ c, post !! 0 = Some c → c ≠ "="%char) →
  pp_token (op ++ post) 0 = Some (ty, length op - 1).
Proof.
  intros Hop Hpost.
  destruct Hop; destruct post as [|c post];
    try (specialize (Hpost c eq_refl));
    unfold pp_token, peek; simpl;
    repeat (case_decide; try done; simpl); reflexivity.
Qed.

Lemma pp_body_plain buf len i st c :
  buf !! i = Some c → plain c → pp_next_dest st = None → i ≠ len - 1 →
  pp_body buf len i st = Some (st, i).
Proof.
  intros Hc Hplain Hnext Hi. unfold pp_body.
  rewrite (pp_token_plain buf i c Hc Hplain). cbn [mbind option_bind].
  destruct (decide (0%Z ≠ 0%Z)) as [?|_]; [done|].
  rewrite Hnext. rewrite decide_False; [done|]. intros [?|?]; done.
Qed.

(** The store at the last index of the scan. *)
Lemma pp_body_last buf len i st c d :
  buf !! i = Some c → plain c → pp_next_dest st = None →
  pp_dest st = Some d → i = len - 1 → pp_start st ≤ i →
  pp_body buf len i st =
  Some (mk_pp (store d (cstr (take (i - pp_start st) (drop (pp_start st) buf)))
                 (pp_e st))
          (S i) None None (pp_v st), i).
Proof.
  intros Hc Hplain Hnext Hdest Hi Hstart. unfold pp_body.
  rewrite (pp_token_plain buf i c Hc Hplain). cbn [mbind option_bind].
  destruct (decide (0%Z ≠ 0%Z)) as [?|_]; [done|].
  rewrite Hnext. rewrite decide_True by (by right).
  rewrite Hdest. cbn [mbind option_bind]. unfold strndup.
  apply lookup_lt_Some in Hc.
  rewrite decide_True by lia. cbn [mbind option_bind].
  assert ((Z.of_nat i - Z.of_nat (pp_start st) <? 0)%Z = false) as ->
    by (apply Z.ltb_ge; lia).
  replace (Z.to_nat (Z.of_nat i - Z.of_nat (pp_start st)))
    with (i - pp_start st) by lia.
  by rewrite !Nat.add_0_r, Nat.add_1_r.
Qed.

(** The store at a comparator. *)
Lemma pp_body_comparator buf len i st ty sk d :
  pp_token buf i = Some (ty, sk) → ty ≠ 0%Z →
  pp_dest st = Some d → pp_start st ≤ i ≤ length buf →
  pp_body buf len i st =
  Some (mk_pp (store d (cstr (take (i - pp_start st) (drop (pp_start st) buf)))
                 (store_type (pp_v st) ty (pp_e st)))
          (i + sk + 1) (Some (version_of (pp_v st))) None at_v2, i + sk).
Proof.
  intros Htok Hty Hdest Hstart. unfold pp_body.
  rewrite Htok. cbn [mbind option_bind].
  destruct (decide (ty ≠ 0%Z)) as [_|?]; [|done].
  cbn [pp_next_dest pp_dest pp_start pp_e pp_v].
  rewrite decide_True by (by left).
  rewrite Hdest. cbn [mbind option_bind]. unfold strndup.
  rewrite decide_True by lia. cbn [mbind option_bind].
  assert ((Z.of_nat i - Z.of_nat (pp_start st) <? 0)%Z = false) as ->
    by (apply Z.ltb_ge; lia).
  by replace (Z.to_nat (Z.of_nat i - Z.of_nat (pp_start st)))
    with (i - pp_start st) by lia.
Qed.

Lemma pp_loop_step fuel buf len i st st' i' :
  i < len → pp_body buf len i st = Some (st', i') →
  pp_loop (S fuel) buf len i st = pp_loop fuel buf len (S i') st'.
Proof.
  intros Hi Hbody. simpl. rewrite decide_True by done.
  rewrite Hbody. reflexivity.
Qed.

Lemma pp_loop_end fuel buf len i st :
  len ≤ i → pp_loop fuel buf len i st = Some st.
Proof. intros Hi. destruct fuel; simpl; rewrite decide_False by lia; done. Qed.

(** More turns than the scan takes change nothing. *)
Lemma pp_loop_fuel fuel buf len : ∀ fuel' i st r,
  fuel ≤ fuel' → pp_loop fuel buf len i st = Some r →
  pp_loop fuel' buf len i st = Some r.
Proof.
  induction fuel as [|fuel IH]; intros fuel' i st r Hle; simpl.
  - case_decide; [done|]. intros [= <-]. apply pp_loop_end. lia.
  - case_decide as Hi; [|intros [= <-]; apply pp_loop_end; lia].
    destruct fuel' as [|fuel']; [lia|]. simpl. rewrite decide_True by done.
    destruct (pp_body buf len i st) as [[st' i']|]; [|done].
    cbn [mbind option_bind]. apply IH. lia.
Qed.

(** The scan passes over bytes that start no comparator, short of the
    last index. *)
Lemma pp_loop_plain buf len k : ∀ fuel i st,
  (∀ m, i ≤ m < i + k → ∃ c, buf !! m = Some c ∧ plain c) →
  i + k < len → pp_next_dest st = None →
  pp_loop (k + fuel) buf len i st = pp_loop fuel buf len (i + k) st.
Proof.
  induction k as [|k IH]; intros fuel i st Hseg Hlen Hnext.
  - by rewrite Nat.add_0_r.
  - destruct (Hseg i ltac:(lia)) as (c & Hc & Hplain).
    change (S k + fuel) with (S (k + fuel)).
    rewrite (pp_loop_step _ _ _ i st st i); [| lia |].
    + rewrite IH; [f_equal; lia| |lia|done].
      intros m Hm. apply Hseg. lia.
    + apply (pp_body_plain buf len i st c); [done|done|done|lia].
Qed.

Lemma lookup_segment {A} (pre seg post : list A) (P : A → Prop) m :
  Forall P seg → length pre ≤ m < length pre + length seg →
  ∃ c, (pre ++ seg ++ post) !! m = Some c ∧ P c.
Proof.
  intros Hseg Hm. rewrite lookup_app_r, lookup_app_l by lia.
  destruct (lookup_lt_is_Some_2 seg (m - length pre) ltac:(lia)) as [c Hc].
  exists c. split; [done|]. rewrite Forall_lookup in Hseg. by eapply Hseg.
Qed.

Lemma window_segment {A} (pre seg post : list A) :
  take (length pre + length seg - length pre)
    (drop (length pre) (pre ++ seg ++ post)) = seg.
Proof.
  rewrite drop_app_length.
  replace (length pre + length seg - length pre) with (length seg) by lia.
  by rewrite take_app_length.
Qed.

(** From the start of a stretch of text to the comparator after it: the
    text is stored where the scan was to store next, the comparator's code
    is stored in the bound in turn, and the scan goes on behind the
    comparator, to store into that bound's version. *)
Lemma pp_loop_to_comparator fuel pre seg op post len ty d st :
  Forall plain seg → comparator ty op →
  (∀ c, post !! 0 = Some c → c ≠ "="%char) →
  length pre + length seg < len →
  pp_start st = length pre → pp_dest st = Some d → pp_next_dest st = None →
  pp_loop (length seg + S fuel) (pre ++ seg ++ op ++ post) len (length pre) st =
  pp_loop fuel (pre ++ seg ++ op ++ post) len
    (length pre + length seg + length op)
    (mk_pp (store d (cstr seg) (store_type (pp_v st) ty (pp_e st)))
       (length pre + length seg + length op)
       (Some (version_of (pp_v st))) None at_v2).
Proof.
  intros Hseg Hop Hpost Hlen Hstart Hdest Hnext.
  destruct (comparator_code ty op Hop) as [Hty Hoplen].
  rewrite pp_loop_plain; [|intros m Hm; by apply lookup_segment|lia|done].
  assert (pp_token (pre ++ seg ++ op ++ post) (length pre + length seg)
          = Some (ty, length op - 1)) as Htok.
  { rewrite app_assoc, <- length_app, pp_token_app.
    by apply pp_token_comparator. }
  assert (pp_start st ≤ length pre + length seg
          ≤ length (pre ++ seg ++ op ++ post)) as Hrange
    by (rewrite Hstart, !length_app; lia).
  pose proof (pp_body_comparator _ len _ st ty _ d Htok Hty Hdest Hrange)
    as Hbody.
  rewrite (pp_loop_step _ _ _ _ _ _ _ Hlen Hbody).
  rewrite Hstart, window_segment.
  replace (S (length pre + length seg + (length op - 1)))
    with (length pre + length seg + length op) by lia.
  replace (length pre + length seg + (length op - 1) + 1)
    with (length pre + length seg + length op) by lia.
  reflexivity.
Qed.

(** From the start of the last stretch of text to the end of the scan:
    the text short of the last byte scanned is stored. *)
Lemma pp_loop_to_end fuel pre seg cl d st :
  Forall plain seg → plain cl →
  pp_start st = length pre → pp_dest st = Some d → pp_next_dest st = None →
  pp_loop (length seg + S fuel) (pre ++ seg ++ [cl])
    (length (pre ++ seg ++ [cl])) (length pre) st =
  Some (mk_pp (store d (cstr seg) (pp_e st))
          (length (pre ++ seg ++ [cl])) None None (pp_v st)).
Proof.
  intros Hseg Hcl Hstart Hdest Hnext.
  assert (length (pre ++ seg ++ [cl]) = S (length pre + length seg)) as Hlen
    by (rewrite !length_app; simpl; lia).
  rewrite pp_loop_plain; [|intros m Hm; by apply lookup_segment|lia|done].
  assert ((pre ++ seg ++ [cl]) !! (length pre + length seg) = Some cl) as Hlast.
  { rewrite lookup_app_r, lookup_app_r by lia.
    by replace (length pre + length seg - length pre - length seg) with 0 by lia. }
  assert (length pre + length seg = length (pre ++ seg ++ [cl]) - 1) as Hi
    by lia.
  assert (pp_start st ≤ length pre + length seg) as Hrange by lia.
  pose proof (pp_body_last _ _ _ st cl d Hlast Hcl Hnext Hdest Hi Hrange)
    as Hbody.
  assert (length pre + length seg < length (pre ++ seg ++ [cl])) as Hlt by lia.
  rewrite (pp_loop_step _ _ _ _ _ _ _ Hlt Hbody).
  rewrite Hstart, window_segment, pp_loop_end by lia.
  by rewrite Hlen.
Qed.

Lemma pp_loop_to_comparator_at fuel buf i j pre seg op post len ty d st :
  buf = pre ++ seg ++ op ++ post → i = length pre →
  j = i + length seg + length op →
  Forall plain seg → comparator ty op →
  (∀ c, post !! 0 = Some c → c ≠ "="%char) →
  i + length seg < len →
  pp_start st = i → pp_dest st = Some d → pp_next_dest st = None →
  pp_loop (length seg + S fuel) buf len i st =
  pp_loop fuel buf len j
    (mk_pp (store d (cstr seg) (store_type (pp_v st) ty (pp_e st))) j
       (Some (version_of (pp_v st))) None at_v2).
Proof. intros -> -> ->. apply pp_loop_to_comparator. Qed.

Lemma pp_loop_to_end_at fuel buf len i pre seg cl d st :
  buf = pre ++ seg ++ [cl] → len = length buf → i = length pre →
  Forall plain seg → plain cl →
  pp_start st = i → pp_dest st = Some d → pp_next_dest st = None →
  pp_loop (length seg + S fuel) buf len i st =
  Some (mk_pp (store d (cstr seg) (pp_e st)) len None None (pp_v st)).
Proof. intros -> -> ->. apply pp_loop_to_end. Qed.

Lemma head_plain l k c :
  Forall plain l → l ≠ [] → (l ++ k) !! 0 = Some c → c ≠ "="%char.
Proof.
  intros Hl Hne. destruct l as [|a l]; [done|]. simpl. intros [= <-].
  apply Forall_cons in Hl as [(? & _) _]. done.
Qed.

Lemma head_plain_last l cl c :
  Forall plain l → plain cl → (l ++ [cl]) !! 0 = Some c → c ≠ "="%char.
Proof.
  intros Hl Hcl. destruct l as [|a l]; simpl; intros [= <-].
  - by destruct Hcl.
  - apply Forall_cons in Hl as [(? & _) _]. done.
Qed.

(** [parse_pattern] over text that holds no comparator: the name is the
    text short of the last byte scanned. *)
Lemma parse_pattern_name x body cl :
  Forall plain body → plain cl →
  parse_pattern x (body ++ [cl]) (length (body ++ [cl])) =
  Some (store dest_pkgname (cstr body) x).
Proof.
  intros Hbody Hcl. unfold parse_pattern.
  set (buf := body ++ [cl]).
  rewrite (pp_loop_fuel (length body + 1) buf (length buf) (length buf) 0 _
             (mk_pp (store dest_pkgname (cstr body) x) (length buf) None None
                at_v1)); [done|unfold buf; rewrite length_app; simpl; lia|].
  by apply (pp_loop_to_end_at 0 buf (length buf) 0 [] body cl).
Qed.

(** [parse_pattern] over a name, a comparator and text that holds none:
    the first bound. *)
Lemma parse_pattern_bound x name ty op ver cl :
  Forall plain name → comparator ty op → Forall plain ver → plain cl →
  parse_pattern x (name ++ op ++ ver ++ [cl])
    (length (name ++ op ++ ver ++ [cl])) =
  Some (store dest_v1_version (cstr ver)
          (store dest_pkgname (cstr name) (store_type at_v1 ty x))).
Proof.
  intros Hname Hop Hver Hcl. unfold parse_pattern.
  set (buf := name ++ op ++ ver ++ [cl]).
  destruct (comparator_code ty op Hop) as [_ Hoplen].
  assert (length buf = length name + length op + length ver + 1) as Hlen
    by (unfold buf; rewrite !length_app; simpl; lia).
  rewrite (pp_loop_fuel (length name + S (length ver + 1)) buf (length buf)
             (length buf) 0 _
             (mk_pp (store dest_v1_version (cstr ver)
                       (store dest_pkgname (cstr name) (store_type at_v1 ty x)))
                (length buf) None None at_v2)); [done|lia|].
  rewrite (pp_loop_to_comparator_at _ buf 0 (length name + length op) [] name
             op (ver ++ [cl]) (length buf) ty dest_pkgname);
    [|done|done|simpl; lia|done|done| |simpl; lia|done|done|done].
  - apply (pp_loop_to_end_at 0 buf (length buf) _ (name ++ op) ver cl);
      try done.
    + unfold buf. by rewrite <- app_assoc.
    + by rewrite length_app.
  - intros c. by apply head_plain_last.
Qed.

(** [parse_pattern] over a name and two comparators, each followed by text
    that holds none: both bounds. *)
Lemma parse_pattern_bounds x name ty1 op1 ver1 ty2 op2 ver2 cl :
  Forall plain name → comparator ty1 op1 → Forall plain ver1 → ver1 ≠ [] →
  comparator ty2 op2 → Forall plain ver2 → plain cl →
  parse_pattern x (name ++ op1 ++ ver1 ++ op2 ++ ver2 ++ [cl])
    (length (name ++ op1 ++ ver1 ++ op2 ++ ver2 ++ [cl])) =
  Some (store dest_v2_version (cstr ver2)
          (store dest_v1_version (cstr ver1)
             (store_type at_v2 ty2
                (store dest_pkgname (cstr name) (store_type at_v1 ty1 x))))).
Proof.
  intros Hname Hop1 Hver1 Hne Hop2 Hver2 Hcl. unfold parse_pattern.
  set (buf := name ++ op1 ++ ver1 ++ op2 ++ ver2 ++ [cl]).
  destruct (comparator_code ty1 op1 Hop1) as [_ Hlen1].
  destruct (comparator_code ty2 op2 Hop2) as [_ Hlen2].
  assert (length buf = length name + length op1 + length ver1 + length op2 +
                       length ver2 + 1) as Hlen
    by (unfold buf; rewrite !length_app; simpl; lia).
  rewrite (pp_loop_fuel (length name + S (length ver1 + S (length ver2 + 1)))
             buf (length buf) (length buf) 0 _
             (mk_pp (store dest_v2_version (cstr ver2)
                       (store dest_v1_version (cstr ver1)
                          (store_type at_v2 ty2
                             (store dest_pkgname (cstr name)
                                (store_type at_v1 ty1 x)))))
                (length buf) None None at_v2)); [done|lia|].
  rewrite (pp_loop_to_comparator_at _ buf 0 (length name + length op1) [] name
             op1 (ver1 ++ op2 ++ ver2 ++ [cl]) (length buf) ty1 dest_pkgname);
    [|done|done|simpl; lia|done|done| |simpl; lia|done|done|done].
  - rewrite (pp_loop_to_comparator_at _ buf (length name + length op1)
               (length name + length op1 + length ver1 + length op2)
               (name ++ op1) ver1 op2 (ver2 ++ [cl]) (length buf) ty2
               dest_v1_version);
      [| |by rewrite length_app|done|done|done| |simpl; lia|done|done|done].
    + apply (pp_loop_to_end_at 0 buf (length buf) _
               (name ++ op1 ++ ver1 ++ op2) ver2 cl); try done.
      * unfold buf. by rewrite <- !app_assoc.
      * rewrite !length_app. lia.
    + unfold buf. by rewrite <- app_assoc.
    + intros c. by apply head_plain_last.
  - intros c. by apply head_plain.
Qed.

(** A byte of the text of a field: no separator, no NUL, no newline, and
    no byte of a comparator. *)
Definition text_byte (a : ascii) : Prop := field_byte a ∧ plain a.

Lemma text_bytes c :
  Forall text_byte c →
  Forall (λ a, a ≠ "|"%char ∧ a ≠ NUL) c ∧ Forall plain c ∧ NUL ∉ c.
Proof.
  intros Hc. split; [|split].
  - eapply Forall_impl; [exact Hc|]. unfold text_byte, field_byte. tauto.
  - eapply Forall_impl; [exact Hc|]. unfold text_byte. tauto.
  - intros Hin. rewrite Forall_forall in Hc. apply Hc in Hin.
    unfold text_byte, field_byte in Hin. tauto.
Qed.

Lemma comparator_bytes ty op :
  comparator ty op → Forall (λ a, a ≠ "|"%char ∧ a ≠ NUL) op ∧ NUL ∉ op.
Proof.
  destruct 1; split; compute_done.
Qed.

(** A line of three columns: the first is handed to [parse_pattern]
    together with what follows it in the buffer, the second and the third
    are copied, the newline with the third. *)
Lemma entry_of_three_columns c0 c1 c2 x1 :
  Forall (λ a, a ≠ "|"%char ∧ a ≠ NUL) c0 →
  Forall (λ a, a ≠ "|"%char ∧ a ≠ NUL) c1 →
  Forall (λ a, a ≠ "|"%char ∧ a ≠ NUL) c2 →
  parse_pattern zero_entry (c0 ++ NUL :: c1 ++ "|"%char :: c2 ++ [NL])
    (length (c0 ++ NUL :: c1 ++ "|"%char :: c2 ++ [NL])) = Some x1 →
  entry_of_line (c0 ++ "|"%char :: c1 ++ "|"%char :: c2 ++ [NL]) =
  Some (mk_audit_entry (pkgname x1) (v1 x1) (v2 x1) (Some c1)
          (Some (c2 ++ [NL]))).
Proof.
  intros H0 H1 H2 Hpp.
  assert (NUL ∉ c1) as Hz1.
  { intros Hin. rewrite Forall_forall in H1. apply H1 in Hin. tauto. }
  assert (NUL ∉ c2 ++ [NL]) as Hz2.
  { rewrite elem_of_app, list_elem_of_singleton. intros [Hin|?]; [|done].
    rewrite Forall_forall in H2. apply H2 in Hin. tauto. }
  assert (Forall (λ a, a ≠ "|"%char ∧ a ≠ NUL) [NL]) as HNL
    by (by repeat constructor).
  unfold entry_of_line. rewrite columns_unfold.
  rewrite (strsep_first c0 (c1 ++ "|"%char :: c2 ++ [NL]) H0).
  rewrite drop_0.
  set (buf := c0 ++ NUL :: c1 ++ "|"%char :: c2 ++ [NL]) in *.
  assert (length (c0 ++ "|"%char :: c1 ++ "|"%char :: c2 ++ [NL]) = length buf)
    as -> by (unfold buf; solve_length).
  rewrite Hpp.
  cbn [mbind option_bind]. change ((0 + 1) mod 256) with 1.
  assert (length buf = S (S (length c0 + length c1 + length c2 + 1))) as ->.
  { unfold buf. solve_length. }
  rewrite columns_unfold.
  replace buf with ((c0 ++ [NUL]) ++ c1 ++ "|"%char :: c2 ++ [NL])
    by (unfold buf; by rewrite <- app_assoc).
  replace (S (length c0)) with (length (c0 ++ [NUL])) by solve_length.
  rewrite strsep_field by done.
  unfold strdup at 1. rewrite decide_True by solve_length.
  rewrite drop_app_length, cstr_app_NUL by done.
  cbn [mbind option_bind]. change ((1 + 1) mod 256) with 2.
  rewrite columns_unfold.
  replace ((c0 ++ [NUL]) ++ c1 ++ NUL :: c2 ++ [NL])
    with ((c0 ++ [NUL] ++ c1 ++ [NUL]) ++ (c2 ++ [NL]))
    by (rewrite <- ?app_assoc; simpl; rewrite <- ?app_assoc; reflexivity).
  replace (S (length (c0 ++ [NUL]) + length c1))
    with (length (c0 ++ [NUL] ++ c1 ++ [NUL])) by solve_length.
  rewrite strsep_last by (by apply Forall_app).
  unfold strdup. rewrite decide_True by solve_length.
  rewrite drop_app_length, cstr_id by done.
  cbn [mbind option_bind]. rewrite columns_done. reflexivity.
Qed.

(** An advisory line of three columns whose name, bounds, URL and
    description are plain text (no separator, NUL, newline or comparator
    byte in them) parses to the fields as written: the name, zero, one or
    two bounds with the codes of their comparators, the URL, and the
    description with the newline of the line. *)
Theorem advisory_line_fields (name ver1 ver2 url desc op1 op2 : cstring)
    (ty1 ty2 : Z) :
  Forall text_byte name → Forall text_byte ver1 → Forall text_byte ver2 →
  Forall text_byte url → Forall text_byte desc →
  comparator ty1 op1 → comparator ty2 op2 → ver1 ≠ [] →
  entry_of_line (name ++ "|"%char :: url ++ "|"%char :: desc ++ [NL]) =
    Some (mk_audit_entry (Some name) zero_version zero_version
            (Some url) (Some (desc ++ [NL]))) ∧
  entry_of_line
    ((name ++ op1 ++ ver1) ++ "|"%char :: url ++ "|"%char :: desc ++ [NL]) =
    Some (mk_audit_entry (Some name) (mk_version_entry (Some ver1) ty1)
            zero_version (Some url) (Some (desc ++ [NL]))) ∧
  entry_of_line
    ((name ++ op1 ++ ver1 ++ op2 ++ ver2) ++
     "|"%char :: url ++ "|"%char :: desc ++ [NL]) =
    Some (mk_audit_entry (Some name) (mk_version_entry (Some ver1) ty1)
            (mk_version_entry (Some ver2) ty2) (Some url)
            (Some (desc ++ [NL]))).
Proof.
  intros Hname Hver1 Hver2 Hurl Hdesc Hop1 Hop2 Hne.
  destruct (text_bytes _ Hname) as (Hn1 & Hn2 & Hn3).
  destruct (text_bytes _ Hver1) as (Hv1 & Hv2 & Hv3).
  destruct (text_bytes _ Hver2) as (Hw1 & Hw2 & Hw3).
  destruct (text_bytes _ Hurl) as (Hu1 & Hu2 & Hu3).
  destruct (text_bytes _ Hdesc) as (Hd1 & Hd2 & Hd3).
  destruct (comparator_bytes _ _ Hop1) as [Ho1 _].
  destruct (comparator_bytes _ _ Hop2) as [Ho2 _].
  assert (plain NUL) as HpNUL by (repeat split; done).
  assert (plain "|"%char) as Hpsep by (repeat split; done).
  assert (plain NL) as HpNL by (repeat split; done).
  assert (∀ ver, Forall plain ver →
    Forall plain (ver ++ NUL :: url ++ "|"%char :: desc)) as Htail.
  { intros ver Hver. apply Forall_app. split; [done|].
    constructor; [done|]. apply Forall_app. split; [done|]. by constructor. }
  split; [|split].
  - rewrite (entry_of_three_columns name url desc
               (store dest_pkgname name zero_entry)); try done.
    replace (name ++ NUL :: url ++ "|"%char :: desc ++ [NL])
      with ((name ++ NUL :: url ++ "|"%char :: desc) ++ [NL])
      by (rewrite <- ?app_assoc; simpl; rewrite <- ?app_assoc; reflexivity).
    rewrite parse_pattern_name by auto.
    by rewrite cstr_app_NUL.
  - rewrite (entry_of_three_columns (name ++ op1 ++ ver1) url desc
               (store dest_v1_version ver1
                  (store dest_pkgname name (store_type at_v1 ty1 zero_entry))));
      try done.
    + by repeat (apply Forall_app; split).
    + replace ((name ++ op1 ++ ver1) ++ NUL :: url ++ "|"%char :: desc ++ [NL])
        with (name ++ op1 ++ (ver1 ++ NUL :: url ++ "|"%char :: desc) ++ [NL])
        by (rewrite <- ?app_assoc; simpl; rewrite <- ?app_assoc; reflexivity).
      rewrite (parse_pattern_bound _ name ty1 op1 _ NL) by auto.
      by rewrite cstr_app_NUL, cstr_id.
  - rewrite (entry_of_three_columns (name ++ op1 ++ ver1 ++ op2 ++ ver2) url desc
               (store dest_v2_version ver2
                  (store dest_v1_version ver1
                     (store_type at_v2 ty2
                        (store dest_pkgname name
                           (store_type at_v1 ty1 zero_entry))))));
      try done.
    + by repeat (apply Forall_app; split).
    + replace ((name ++ op1 ++ ver1 ++ op2 ++ ver2) ++
               NUL :: url ++ "|"%char :: desc ++ [NL])
        with (name ++ op1 ++ ver1 ++ op2 ++
              (ver2 ++ NUL :: url ++ "|"%char :: desc) ++ [NL])
        by (rewrite <- ?app_assoc; simpl; rewrite <- ?app_assoc; reflexivity).
      rewrite (parse_pattern_bounds _ name ty1 op1 ver1 ty2 op2 _ NL) by auto.
      by rewrite cstr_app_NUL, !cstr_id.
Qed.

Lemma text_bytes_example :
  Forall text_byte (bytes "openssl") ∧ Forall text_byte (bytes "1.0.1") ∧
  Forall text_byte (bytes "1.0.1g") ∧
  Forall text_byte (bytes "http://vuxml.example/heartbleed.html") ∧
  Forall text_byte (bytes "openssl -- information disclosure").
Proof. repeat split; repeat constructor; done. Qed.

(** The three shapes on an OpenSSL advisory. *)
Lemma advisory_line_fields_witness :
  entry_of_line
    (bytes "openssl|http://vuxml.example/heartbleed.html|openssl -- information disclosure"
     ++ [NL]) =
    Some (mk_audit_entry (Some (bytes "openssl")) zero_version zero_version
            (Some (bytes "http://vuxml.example/heartbleed.html"))
            (Some (bytes "openssl -- information disclosure" ++ [NL]))) ∧
  entry_of_line
    (bytes "openssl>=1.0.1|http://vuxml.example/heartbleed.html|openssl -- information disclosure"
     ++ [NL]) =
    Some (mk_audit_entry (Some (bytes "openssl"))
            (mk_version_entry (Some (bytes "1.0.1")) GTE) zero_version
            (Some (bytes "http://vuxml.example/heartbleed.html"))
            (Some (bytes "openssl -- information disclosure" ++ [NL]))) ∧
  entry_of_line
    (bytes "openssl>=1.0.1<1.0.1g|http://vuxml.example/heartbleed.html|openssl -- information disclosure"
     ++ [NL]) =
    Some (mk_audit_entry (Some (bytes "openssl"))
            (mk_version_entry (Some (bytes "1.0.1")) GTE)
            (mk_version_entry (Some (bytes "1.0.1g")) LT)
            (Some (bytes "http://vuxml.example/heartbleed.html"))
            (Some (bytes "openssl -- information disclosure" ++ [NL]))).
Proof.
  destruct text_bytes_example as (H1 & H2 & H3 & H4 & H5).
  exact (advisory_line_fields (bytes "openssl") (bytes "1.0.1") (bytes "1.0.1g")
           (bytes "http://vuxml.example/heartbleed.html")
           (bytes "openssl -- information disclosure") (bytes ">=") (bytes "<")
           GTE LT H1 H2 H3 H4 H5 comparator_GTE comparator_LT
           ltac:(discriminate)).
Defined.

Lemma one_column_entry (body : cstring) (cl : ascii) :
  Forall text_byte body → plain cl → cl ≠ "|"%char → cl ≠ NUL →
  entry_of_line (body ++ [cl]) =
  Some (mk_audit_entry (Some body) zero_version zero_version None None).
Proof.
  intros Hbody Hcl Hsep Hnul.
  destruct (text_bytes _ Hbody) as (Hb1 & Hb2 & Hb3).
  unfold entry_of_line. rewrite columns_unfold.
  assert (Forall (λ a, a ≠ "|"%char ∧ a ≠ NUL) (body ++ [cl])) as Hline
    by (apply Forall_app; split; [done|by repeat constructor]).
  pose proof (strsep_last [] (body ++ [cl]) Hline) as Hsep'.
  cbn [app length] in Hsep'. rewrite Hsep', drop_0.
  rewrite parse_pattern_name by done.
  cbn [mbind option_bind]. rewrite columns_done, cstr_id by done.
  reflexivity.
Qed.

(** A line of one column, of plain text up to its last byte: the name is
    the line short of that byte, which is the newline of the line, or the
    last byte of the name where the file ends without a newline. *)
Theorem one_column_line (body : cstring) (cl : ascii) :
  Forall text_byte body → plain cl → cl ≠ "|"%char → cl ≠ NUL →
  entry_of_line (body ++ [cl]) =
  Some (mk_audit_entry (Some body) zero_version zero_version None None).
Proof. apply one_column_entry. Qed.

(** "foo" and its newline; "foo" as the last line of a file without one. *)
Lemma one_column_line_witness :
  entry_of_line (bytes "foo" ++ [NL]) =
    Some (mk_audit_entry (Some (bytes "foo")) zero_version zero_version
            None None) ∧
  entry_of_line (bytes "fo" ++ ["o"%char]) =
    Some (mk_audit_entry (Some (bytes "fo")) zero_version zero_version
            None None) ∧
  getlines (bytes "#" ++ [NL] ++ bytes "foo") = [bytes "#" ++ [NL]; bytes "foo"].
Proof.
  split; [|split; [|reflexivity] ].
  - apply (one_column_line (bytes "foo") NL); [|repeat split; done|done|done].
    repeat constructor; done.
  - apply (one_column_line (bytes "fo") "o"%char);
      [|repeat split; done|done|done].
    repeat constructor; done.
Defined.

(* ================================================================= *)
(** ** The parser: what malformed lines become *)

Section parse_db_outcome.
Context `{E : Extern}.




End parse_db_outcome.






(* ================================================================= *)
(** ** exec_audit (audit.c, lines 509-632): the package named on the
    command line *)

(** [EX_USAGE] of sysexits.h. *)
Definition EX_USAGE : Z := 64.

(** [strrchr(s, c)] for a byte [c] other than NUL: the offset of the last
    [c] in the string, [NULL] if there is none. *)
Fixpoint strrchr (s : cstring) (c : ascii) : option nat :=
  match s with
  | [] => None
  | a :: s' =>
      match strrchr s' c with
      | Some i => Some (S i)
      | None => if decide (a = c) then Some 0 else None
      end
  end.

(** Lines 565-574: the argument is cut in place at its last '-', the name
    is read from its start and the version from behind the cut; without a
    '-' the program exits through [err] with [EX_USAGE]. *)
Definition pkg_of_arg (arg : cstring) : pkg + Z :=
  match strrchr arg "-"%char with
  | None => inr EX_USAGE
  | Some version =>
      let buf : list ascii := <[version := NUL]> (arg : list ascii) in
      inl (mk_pkg (cstr buf) (cstr (drop (S version) buf)))
  end.

(** Lines 615-617: the packages the iterator yields are looked up one
    after the other, in [vuln], an [unsigned int], the count of those
    [is_vulnerable] returns true for; the entries reported add up. *)
Fixpoint audit_packages `{Extern} (quiet : bool)
    (ret : list audit_entry_sorted)
    (tbl : list nat) (pkgs : list pkg) (vuln : Z) (out : list audit_entry)
  : option (Z * list audit_entry) :=
  match pkgs with
  | [] => Some (vuln, out)
  | p :: pkgs' =>
      '(res, reported) ← is_vulnerable quiet ret tbl p;
      audit_packages quiet ret tbl pkgs'
        (if (res : bool) then ((vuln + 1) mod 2 ^ 32)%Z else vuln) (out ++ reported)
  end.

Lemma strrchr_None (s : list ascii) c : strrchr s c = None ↔ c ∉ s.
Proof.
  induction s as [|a s IH]; simpl.
  - split; [intros _; apply not_elem_of_nil|done].
  - rewrite not_elem_of_cons. destruct (strrchr s c) as [i|].
    + split; [done|]. intros [_ Hs]. by apply IH in Hs.
    + case_decide; split; try done.
      * intros [? _]. congruence.
      * intros _. split; [congruence|]. by apply IH.
Qed.

Lemma strrchr_Some (s : list ascii) c : ∀ i,
  strrchr s c = Some i ↔ s !! i = Some c ∧ c ∉ drop (S i) s.
Proof.
  induction s as [|a s IH]; intros i; simpl.
  - split; [done|]. intros [? _]. done.
  - destruct (strrchr s c) as [j|] eqn:Hs.
    + split.
      * intros [= <-]. simpl. by apply IH.
      * intros [Hi Hnot]. destruct i as [|i]; simpl in *.
        -- rewrite drop_0 in Hnot. apply strrchr_None in Hnot. congruence.
        -- f_equal. assert (Some j = Some i) as [= ->]; [|done].
           by apply IH.
    + apply strrchr_None in Hs. split.
      * case_decide as Ha; [|done]. intros [= <-]. simpl.
        rewrite drop_0. by subst.
      * intros [Hi Hnot]. destruct i as [|i]; simpl in *.
        -- rewrite decide_True by congruence. done.
        -- destruct Hs. by eapply list_elem_of_lookup_2.
Qed.

(** The argument "name-version" gives the package of that name and
    version, the cut being at the last '-': a name may hold dashes, a
    version may not.  An argument without a dash goes no further than the
    usage error. *)
Theorem pkg_of_arg_split (arg : cstring) :
  NUL ∉ arg →
  (∀ p, pkg_of_arg arg = inl p ↔
     arg = PKG_NAME p ++ "-"%char :: PKG_VERSION p ∧
     "-"%char ∉ PKG_VERSION p) ∧
  (∀ code, pkg_of_arg arg = inr code ↔ code = EX_USAGE ∧ "-"%char ∉ arg).
Proof.
  intros Hnul. unfold pkg_of_arg. unfold cstring in *.
  destruct (strrchr arg "-"%char) as [i|] eqn:Hi.
  - apply strrchr_Some in Hi as [Hi Hnot].
    assert (arg = take i arg ++ "-"%char :: drop (S i) arg) as Hsplit.
    { by rewrite <- (take_drop_middle arg i "-"%char Hi) at 1. }
    assert (<[i := NUL]> arg = take i arg ++ NUL :: drop (S i) arg) as Hbuf.
    { apply insert_take_drop. by eapply lookup_lt_Some. }
    assert ((NUL ∉ take i arg) ∧ (NUL ∉ drop (S i) arg)) as [Hn1 Hn2].
    { rewrite Hsplit in Hnul.
      rewrite elem_of_app, elem_of_cons in Hnul. tauto. }
    assert (drop (S i) (<[i := NUL]> arg) = drop (S i) arg) as Hdrop
      by (by rewrite drop_insert_lt by lia).
    cbv zeta. rewrite Hdrop, Hbuf, cstr_app_NUL, cstr_id by done.
    split.
    + intros [name version]. unfold cstring in *. simpl. split.
      * intros [= <- <-]. by split.
      * intros [Harg Hv]. f_equal.
        assert (strrchr arg "-"%char = Some (length name)) as Hlast.
        { apply strrchr_Some. rewrite Harg. split.
          - by rewrite lookup_app_r, Nat.sub_diag by lia.
          - rewrite drop_app_ge by lia.
            by replace (S (length name) - length name) with 1 by lia. }
        assert (strrchr arg "-"%char = Some i) as Hlast'
          by (by apply strrchr_Some).
        assert (i = length name) as -> by congruence.
        rewrite Harg. rewrite take_app_length. f_equal.
        rewrite drop_app_ge by lia.
        by replace (S (length name) - length name) with 1 by lia.
    + intros code. split; [done|]. intros [_ Hno]. destruct Hno.
      by eapply list_elem_of_lookup_2.
  - apply strrchr_None in Hi. split.
    + intros p. split; [done|]. intros [Harg _]. destruct Hi.
      rewrite Harg, elem_of_app, elem_of_cons. auto.
    + intros code. split; [intros [= <-]; done|]. by intros [-> _].
Qed.

(** "py27-foo-1.0" is the package "py27-foo" at version "1.0". *)
Lemma pkg_of_arg_split_witness :
  (NUL ∉ bytes "py27-foo-1.0") ∧
  pkg_of_arg (bytes "py27-foo-1.0") = inl (mk_pkg (bytes "py27-foo") (bytes "1.0")).
Proof.
  assert (NUL ∉ bytes "py27-foo-1.0") as Hnul by compute_done.
  split; [exact Hnul|].
  apply (proj1 (pkg_of_arg_split (bytes "py27-foo-1.0") Hnul)).
  split; [reflexivity|compute_done].
Defined.

(* ================================================================= *)
(** ** exec_audit: the count over the installed packages *)

(** Some advisory of the list applies to the package. *)
Definition vulnerable `{Extern} (h : list audit_entry) (p : pkg) : bool :=
  existsb (applies_b p) h.

Section installed_packages.
Context `{E : Extern}.

Lemma filter_applies_nil p (l : list audit_entry) :
  filter (λ x, applies_b p x) l ≠ [] ↔ vulnerable l p = true.
Proof.
  unfold vulnerable. induction l as [|a l IH]; [done|].
  cbn [existsb]. destruct (applies_b p a) eqn:Ha.
  - rewrite filter_cons_True by (by rewrite Ha). done.
  - rewrite filter_cons_False by (rewrite Ha; simpl; tauto). done.
Qed.

Lemma audit_packages_spec (quiet : bool) (h : list audit_entry)
    (ret : list audit_entry_sorted) (tbl : list nat) (pkgs : list pkg) :
  preprocess_db h = Some (ret, tbl) →
  Forall (λ x, (NUL ∉ name_of x) ∧ str_noglob_len (name_of x) ≠ 0) h →
  Forall (printable quiet) h →
  Forall (λ p, (uchar (first_char (PKG_NAME p)) < 128)%Z) pkgs →
  ∀ vuln out, (0 ≤ vuln < 2 ^ 32)%Z →
  audit_packages quiet ret tbl pkgs vuln out =
  Some (((vuln + Z.of_nat (length (filter (λ p, vulnerable h p) pkgs)))
           mod 2 ^ 32)%Z,
        out ++ (pkgs ≫= λ p, filter (λ x, applies_b p x) (e <$> ret))).
Proof.
  intros Hpre Hh Hprint Hpkgs.
  induction Hpkgs as [|p pkgs Hp _ IH]; intros vuln out Hv.
  - simpl. by rewrite Z.add_0_r, Z.mod_small, app_nil_r by lia.
  - rewrite bind_cons, app_assoc. cbn [audit_packages].
    destruct (is_vulnerable_of_index quiet h ret tbl p Hpre Hh Hprint Hp)
      as [Hq Hout].
    cbv zeta in Hq, Hout. rewrite Hq. cbn [mbind option_bind].
    assert (bool_decide (filter (λ x, applies_b p x) (e <$> ret) ≠ [])
            = vulnerable h p) as ->.
    { destruct (vulnerable h p) eqn:Hvul.
      - apply bool_decide_eq_true. apply filter_applies_nil in Hvul.
        intros Hnil. rewrite Hnil in Hout. symmetry in Hout.
        by apply Permutation_nil_r in Hout.
      - apply bool_decide_eq_false. intros Hne. apply Hne.
        destruct (filter (λ x, applies_b p x) h) eqn:Hf.
        + by apply Permutation_nil_r in Hout.
        + assert (vulnerable h p = true) as Ht
            by (apply filter_applies_nil; by rewrite Hf).
          congruence. }
    destruct (vulnerable h p) eqn:Hvul.
    + rewrite filter_cons_True by (by rewrite Hvul).
      rewrite IH by (apply Z.mod_pos_bound; lia).
      f_equal. f_equal. cbn [length].
      rewrite Zplus_mod_idemp_l. f_equal. lia.
    + rewrite filter_cons_False by (rewrite Hvul; simpl; tauto).
      by rewrite IH by done.
Qed.

(** Over the installed packages, on an index built from advisories whose
    names are C strings that start with a literal byte, for package names
    that start with an ASCII byte, and where what is to be printed can be
    printed (the program runs with [-q], or every advisory has a
    description and a URL): the loop ends, the count it leaves in [vuln],
    which the program prints when it runs without [-q], is the number of
    packages that some advisory applies to (a package with several
    advisories counts once), modulo 2^32, and the advisories reported are
    those that apply, package by package. *)
Theorem audit_packages_count (quiet : bool) (h : list audit_entry)
    (ret : list audit_entry_sorted) (tbl : list nat) (pkgs : list pkg) :
  preprocess_db h = Some (ret, tbl) →
  Forall (λ x, (NUL ∉ name_of x) ∧ str_noglob_len (name_of x) ≠ 0) h →
  Forall (λ x, quiet = true ∨ (desc x ≠ None ∧ url x ≠ None)) h →
  Forall (λ p, (uchar (first_char (PKG_NAME p)) < 128)%Z) pkgs →
  audit_packages quiet ret tbl pkgs 0 [] =
  Some ((Z.of_nat (length (filter (λ p, vulnerable h p) pkgs)) mod 2 ^ 32)%Z,
        pkgs ≫= λ p, filter (λ x, applies_b p x) (e <$> ret)).
Proof.
  intros Hpre Hh Hprint Hpkgs.
  by rewrite (audit_packages_spec quiet h ret tbl pkgs Hpre Hh Hprint Hpkgs 0 [])
    by lia.
Qed.

End installed_packages.

(** Three installed packages against the sample, without [-q]: foo-1.0
    has two advisories, bar-3 one, gcc-12 none; the count is 2. *)
Lemma audit_packages_count_witness :
  @audit_packages ref_extern false query_sample_ret
    (first_byte_idx query_sample_ret)
    [mk_pkg (bytes "foo") (bytes "1.0"); mk_pkg (bytes "gcc") (bytes "12");
     mk_pkg (bytes "bar") (bytes "3")] 0 [] =
  Some (Z.of_nat
          (length
             (filter (λ p, @vulnerable ref_extern query_sample p)
                [mk_pkg (bytes "foo") (bytes "1.0");
                 mk_pkg (bytes "gcc") (bytes "12");
                 mk_pkg (bytes "bar") (bytes "3")])) mod 2 ^ 32,
        [mk_pkg (bytes "foo") (bytes "1.0"); mk_pkg (bytes "gcc") (bytes "12");
         mk_pkg (bytes "bar") (bytes "3")] ≫=
        λ p, filter (λ x, @applies_b ref_extern p x) (e <$> query_sample_ret))%Z ∧
  length (filter (λ p, @vulnerable ref_extern query_sample p)
            [mk_pkg (bytes "foo") (bytes "1.0");
             mk_pkg (bytes "gcc") (bytes "12");
             mk_pkg (bytes "bar") (bytes "3")]) = 2.
Proof.
  split; [|vm_compute; reflexivity].
  apply (@audit_packages_count ref_extern false query_sample query_sample_ret
           _ _ query_sample_index query_sample_names
           (query_sample_printable false)).
  repeat constructor.
Defined.
